(** * Flipper plugin manager: the command queue and the plugin lifecycle

    A shallow embedding of
    [desktop/flipper-ui-core/src/dispatcher/pluginManager.tsx] and the
    properties that its specification states about it.

    The dispatcher is written against collaborators that live elsewhere
    (the store, [Client], the devices, the module cache).  They are an
    interface here, [Host]; every call the dispatcher makes to one of them
    is recorded, in program order, in the trace of the computation. *)

From stdpp Require Import base strings list gmap.

Set Default Proof Using "Type*".
Local Open Scope string_scope.
Local Open Scope list_scope.

(** ** Data model *)

(** [ActivatablePluginDetails] (flipper-plugin-lib): the fields the
    dispatcher reads. *)
Record ActivatablePluginDetails := {
  details_id : string;
  details_title : string;
  details_version : string;
  isBundled : bool;
  entry : string;
}.

(** [PluginDefinition]: [isDevicePlugin] is what [isDevicePluginDefinition]
    tests (a plugin is either a device plugin or a client plugin). *)
Record PluginDefinition := {
  plugin_id : string;
  plugin_title : string;
  plugin_version : string;
  details : ActivatablePluginDetails;
  isDevicePlugin : bool;
}.

(** A [Client] object is a reference: its identity and its (immutable) query.
    What the client currently runs is state of the host. *)
Record ClientQuery := { app : string; device_id : string }.
Record Client := { client_id : string; query : ClientQuery }.
Record Device := { serial : string }.

Record ClientIdConstituents := {
  cid_app : string; cid_os : string; cid_device : string; cid_device_id : string;
}.

(** [BaseDevice.supportsPlugin] is called with the plugin's details in
    [switchDevicePlugin] and with the definition itself in
    [updateDevicePlugin]. *)
Inductive PluginOrDetails :=
| OfDefinition (p : PluginDefinition)
| OfDetails (d : ActivatablePluginDetails).

(** The slices of the store state that the dispatcher reads. *)
Record Connections := {
  clients : list Client;
  devices : list Device;
  selectedAppId : option string;
  enabledPlugins : gmap string (list string);
  enabledDevicePlugins : gset string;
}.

Record Plugins := {
  clientPlugins : gmap string PluginDefinition;
  devicePlugins : gmap string PluginDefinition;
}.

Record State := { connections : Connections; plugins : Plugins }.

(** The actions the dispatcher dispatches. *)
Inductive Action :=
| pluginCommandsProcessed (count : nat)
| pluginLoaded (p : PluginDefinition)
| pluginUninstalled (d : ActivatablePluginDetails)
| setPluginEnabled (pluginId selectedApp : string)
| setPluginDisabled (pluginId selectedApp : string)
| setDevicePluginEnabled (pluginId : string)
| setDevicePluginDisabled (pluginId : string)
| clearMessageQueue (pluginKey : string).

(** The queued commands ([reducers/pluginManager]).  [UNEXPECTED] stands for
    a command whose [type] is none of the four, the [default:] branch. *)
Record LoadPluginActionPayload := {
  load_plugin : ActivatablePluginDetails;
  enable : bool;
  notifyIfFailed : bool;
}.
Record UninstallPluginActionPayload := { uninstall_plugin : PluginDefinition }.
Record UpdatePluginActionPayload := {
  update_plugin : PluginDefinition;
  enablePlugin : bool;
}.
Record SwitchPluginActionPayload := {
  switch_plugin : PluginDefinition;
  selectedApp : option string;
}.

Inductive PluginCommand :=
| LOAD_PLUGIN (payload : LoadPluginActionPayload)
| UNINSTALL_PLUGIN (payload : UninstallPluginActionPayload)
| UPDATE_PLUGIN (payload : UpdatePluginActionPayload)
| SWITCH_PLUGIN (payload : SwitchPluginActionPayload)
| UNEXPECTED (type : string).

(** ** Exceptions and the trace of calls *)

(** A thrown JavaScript value. *)
Definition Error := string.

Inductive Res (A : Type) :=
| Ok (a : A)
| Throw (e : Error).
Arguments Ok {A} a.
Arguments Throw {A} e.

Inductive LogArg :=
| LogError (e : Error)
| LogCommand (c : PluginCommand).

(** One constructor per call that leaves the module. *)
Inductive Event :=
| EvRequirePlugin (d : ActivatablePluginDetails)
| EvDispatch (a : Action)
| EvStartPluginIfNeeded (c : Client) (p : PluginDefinition)
| EvStopPluginIfNeeded (c : Client) (pluginId : string)
| EvInitPlugin (c : Client) (pluginId : string)
| EvDeinitPlugin (c : Client) (pluginId : string)
| EvLoadDevicePlugin (d : Device) (p : PluginDefinition)
| EvUnloadDevicePlugin (d : Device) (pluginId : string)
| EvUnloadModule (path : string)
| EvConsoleError (msg : string) (arg : LogArg)
| EvShowErrorNotification (msg : string).

(** ** The collaborators

    Queries read the host state; commands change it and may throw.  The
    two sinks [console.error] and [showErrorNotification] only leave an
    event: the specification gives them no failure mode. *)
Class Host (W : Type) := {
  getState : W → State;
  host_dispatch : Action → W → Res () * W;
  host_requirePlugin : ActivatablePluginDetails → W → Res PluginDefinition * W;
  host_unloadModule : string → W → Res () * W;
  client_supportsPlugin : Client → string → W → bool;
  client_isBackgroundPlugin : Client → string → W → bool;
  client_startPluginIfNeeded : Client → PluginDefinition → W → Res () * W;
  client_stopPluginIfNeeded : Client → string → W → Res () * W;
  client_initPlugin : Client → string → W → Res () * W;
  client_deinitPlugin : Client → string → W → Res () * W;
  device_supportsPlugin : Device → PluginOrDetails → W → bool;
  device_loadDevicePlugin : Device → PluginDefinition → W → Res () * W;
  device_unloadDevicePlugin : Device → string → W → Res () * W;
  (* pure helpers and constants imported by the module *)
  deconstructClientId : string → ClientIdConstituents;
  getPluginKey : string → string → string → string;
  defaultEnabledBackgroundPlugins : list string;
}.

(** ** The monad: host state, exceptions, and the trace written so far *)

Record Out (W A : Type) := MkOut {
  res : Res A;
  world : W;
  trace : list Event;
}.
Arguments MkOut {W A} res world trace.
Arguments res {W A} o.
Arguments world {W A} o.
Arguments trace {W A} o.

Definition M (W A : Type) : Type := W → Out W A.

Definition ret {W A} (a : A) : M W A := λ w, MkOut (Ok a) w [].

Definition bind {W A B} (m : M W A) (f : A → M W B) : M W B := λ w,
  let o := m w in
  match res o with
  | Ok a => let o' := f a (world o) in
            MkOut (res o') (world o') (trace o ++ trace o')
  | Throw e => MkOut (Throw e) (world o) (trace o)
  end.

(** [try { m } catch (e) { h e }] *)
Definition try_catch {W A} (m : M W A) (h : Error → M W A) : M W A := λ w,
  let o := m w in
  match res o with
  | Ok a => o
  | Throw e => let o' := h e (world o) in
               MkOut (res o') (world o') (trace o ++ trace o')
  end.

(** A call to a collaborator: the call is recorded, then it runs. *)
Definition call {W A} (ev : Event) (op : W → Res A * W) : M W A := λ w,
  MkOut (op w).1 (op w).2 [ev].

Definition emit {W} (ev : Event) : M W () := λ w, MkOut (Ok ()) w [ev].

Definition gets {W A} (f : W → A) : M W A := λ w, MkOut (Ok (f w)) w [].

Declare Scope m_scope.
Delimit Scope m_scope with M.
Notation "x <- m ;; k" := (bind m (λ x, k))
  (at level 100, m at next level, right associativity) : m_scope.
Notation "m ;; k" := (bind m (λ _, k))
  (at level 100, right associativity) : m_scope.

(** [xs.forEach(f)]: an exception in [f] leaves the loop. *)
Fixpoint forEach {W X} (xs : list X) (f : X → M W ()) : M W () :=
  match xs with
  | [] => ret ()
  | x :: xs' => (f x ;; forEach xs' f)%M
  end.

(** JavaScript truthiness of a string: every string but the empty one. *)
Definition truthy (s : string) : bool :=
  match s with
  | EmptyString => false
  | String _ _ => true
  end.

(** [xs.includes(x)] on an array of strings. *)
Definition includes (xs : list string) (x : string) : bool :=
  existsb (String.eqb x) xs.

(** [obj[key]?.includes(x)]: [undefined], which is falsy, when the key is
    absent. *)
Definition includes_opt (xs : option (list string)) (x : string) : bool :=
  match xs with
  | Some l => includes l x
  | None => false
  end.

(** The double-quote character of the notification messages. *)
Definition dquote : string :=
  String (Ascii.Ascii false true false false false true false false) EmptyString.

(** Modelled from the spec: [getAllClients] of [reducers/connections] is not
    part of the sources at hand; the update handler works on "every
    currently connected client". *)
Definition getAllClients (c : Connections) : list Client := clients c.

(** Modelled from the spec: [getClientsByAppName] of [reducers/connections]
    is not part of the sources at hand; the switch handler is to "find all
    clients matching that app". *)
Definition getClientsByAppName (cs : list Client) (appName : string)
  : list Client :=
  List.filter (λ c, String.eqb (app (query c)) appName) cs.

(** Modelled from the spec: [isDevicePluginDefinition] of
    [utils/pluginUtils] is not part of the sources at hand; a definition
    targets either a device or a client connection. *)
Definition isDevicePluginDefinition (p : PluginDefinition) : bool :=
  isDevicePlugin p.

(** ** The dispatcher, function by function *)

Section PluginManager.
Context {W : Type} `{!Host W}.
Local Open Scope m_scope.

Local Abbreviation M := (M W).

(** *** The calls, as the module makes them *)

Definition dispatch (a : Action) : M () :=
  call (EvDispatch a) (host_dispatch a).
Definition requirePlugin (d : ActivatablePluginDetails) : M PluginDefinition :=
  call (EvRequirePlugin d) (host_requirePlugin d).
Definition unloadModule (path : string) : M () :=
  call (EvUnloadModule path) (host_unloadModule path).
Definition startPluginIfNeeded (c : Client) (p : PluginDefinition) : M () :=
  call (EvStartPluginIfNeeded c p) (client_startPluginIfNeeded c p).
Definition stopPluginIfNeeded (c : Client) (pluginId : string) : M () :=
  call (EvStopPluginIfNeeded c pluginId) (client_stopPluginIfNeeded c pluginId).
Definition initPlugin (c : Client) (pluginId : string) : M () :=
  call (EvInitPlugin c pluginId) (client_initPlugin c pluginId).
Definition deinitPlugin (c : Client) (pluginId : string) : M () :=
  call (EvDeinitPlugin c pluginId) (client_deinitPlugin c pluginId).
Definition loadDevicePlugin (d : Device) (p : PluginDefinition) : M () :=
  call (EvLoadDevicePlugin d p) (device_loadDevicePlugin d p).
Definition unloadDevicePlugin (d : Device) (pluginId : string) : M () :=
  call (EvUnloadDevicePlugin d pluginId) (device_unloadDevicePlugin d pluginId).
Definition console_error (msg : string) (arg : LogArg) : M () :=
  emit (EvConsoleError msg arg).
Definition showErrorNotification (msg : string) : M () :=
  emit (EvShowErrorNotification msg).

(** *** Lines 337-343 *)
Definition unloadPluginModule (plugin : ActivatablePluginDetails) : M () :=
  if isBundled plugin then
    (* We cannot unload bundled plugin. *)
    ret ()
  else unloadModule (entry plugin).

(** The condition shared by [startPlugin] and [stopPlugin]:
    [(force || !defaultEnabledBackgroundPlugins.includes(id)) &&
     client?.isBackgroundPlugin(id)], read in the current host state. *)
Definition backgroundSignalDue (force : bool) (client : Client)
    (pluginId : string) (w : W) : bool :=
  (force || negb (includes defaultEnabledBackgroundPlugins pluginId))
  && client_isBackgroundPlugin client pluginId w.

(** *** Lines 304-318 *)
Definition startPlugin (client : Client) (plugin : PluginDefinition)
    (forceInitBackgroundPlugin : bool) : M () :=
  startPluginIfNeeded client plugin ;;
  (* background plugin? connect it needed *)
  due <- gets (backgroundSignalDue forceInitBackgroundPlugin client
                 (plugin_id plugin)) ;;
  if due : bool then initPlugin client (plugin_id plugin) else ret ().

(** *** Lines 320-335 *)
Definition stopPlugin (client : Client) (pluginId : string)
    (forceInitBackgroundPlugin : bool) : M bool :=
  due <- gets (backgroundSignalDue forceInitBackgroundPlugin client pluginId) ;;
  (if due : bool then deinitPlugin client pluginId else ret ()) ;;
  (* stop sandy plugins *)
  stopPluginIfNeeded client pluginId ;;
  ret true.

(** *** Lines 177-183 *)
Definition selectedAppName (w : W) : option string :=
  match selectedAppId (connections (getState w)) with
  | Some sid =>
      if truthy sid then Some (cid_app (deconstructClientId sid)) else None
  | None => None
  end.

Definition getSelectedAppName : M (option string) := gets selectedAppName.

(** [if (selectedApp)] on a [string | undefined]. *)
Definition truthy_app (a : option string) : option string :=
  match a with
  | Some s => if truthy s then Some s else None
  | None => None
  end.

(** *** Lines 196-224 *)
Definition switchClientPlugin (plugin : PluginDefinition)
    (selectedApp : option string) : M () :=
  selectedApp <- match selectedApp with
                 | Some a => ret (Some a)
                 | None => getSelectedAppName
                 end ;;
  match truthy_app selectedApp with
  | None => ret ()
  | Some selectedApp =>
      connections <- gets (λ w, connections (getState w)) ;;
      let clients := getClientsByAppName (clients connections) selectedApp in
      if includes_opt (enabledPlugins connections !! selectedApp)
           (plugin_id plugin)
      then
        forEach clients (λ client,
          stopPlugin client (plugin_id plugin) false ;;
          let pluginKey :=
            getPluginKey (client_id client) (device_id (query client))
              (plugin_id plugin) in
          dispatch (clearMessageQueue pluginKey)) ;;
        dispatch (setPluginDisabled (plugin_id plugin) selectedApp)
      else
        forEach clients (λ client, startPlugin client plugin false) ;;
        dispatch (setPluginEnabled (plugin_id plugin) selectedApp)
  end.

(** *** Lines 226-242 *)
Definition switchDevicePlugin (plugin : PluginDefinition) : M () :=
  connections <- gets (λ w, connections (getState w)) ;;
  devicesWithPlugin <- gets (λ w,
    List.filter (λ d, device_supportsPlugin d (OfDetails (details plugin)) w)
      (devices connections)) ;;
  if bool_decide (plugin_id plugin ∈ enabledDevicePlugins connections) then
    forEach devicesWithPlugin (λ d, unloadDevicePlugin d (plugin_id plugin)) ;;
    dispatch (setDevicePluginDisabled (plugin_id plugin))
  else
    forEach devicesWithPlugin (λ d, loadDevicePlugin d plugin) ;;
    dispatch (setDevicePluginEnabled (plugin_id plugin)).

(** *** Lines 185-194 *)
Definition switchPlugin (payload : SwitchPluginActionPayload) : M () :=
  let plugin := switch_plugin payload in
  if isDevicePluginDefinition plugin then switchDevicePlugin plugin
  else switchClientPlugin plugin (selectedApp payload).

(** *** Lines 250-255, the [if (enable)] block of [updateClientPlugin] *)
Definition enableForSelectedApp (plugin : PluginDefinition) (enable : bool)
  : M () :=
  if enable then
    selectedApp <- getSelectedAppName ;;
    match truthy_app selectedApp with
    | Some selectedApp => dispatch (setPluginEnabled (plugin_id plugin) selectedApp)
    | None => ret ()
    end
  else ret ().

(** *** Lines 256-263, the filter of [updateClientPlugin]; the store is read
    when the filter runs. *)
Definition clientsWithEnabledPlugin (plugin : PluginDefinition)
    (clients : list Client) (w : W) : list Client :=
  List.filter (λ c,
    client_supportsPlugin c (plugin_id plugin) w
    && includes_opt
         (enabledPlugins (connections (getState w)) !! app (query c))
         (plugin_id plugin))
    clients.

(** *** Lines 244-276 *)
Definition updateClientPlugin (plugin : PluginDefinition) (enable : bool)
  : M () :=
  clients <- gets (λ w, getAllClients (connections (getState w))) ;;
  enableForSelectedApp plugin enable ;;
  clientsWithEnabledPlugin <- gets (clientsWithEnabledPlugin plugin clients) ;;
  previousVersion <- gets (λ w,
    clientPlugins (plugins (getState w)) !! plugin_id plugin) ;;
  forEach clientsWithEnabledPlugin (λ client,
    stopPlugin client (plugin_id plugin) false ;; ret ()) ;;
  forEach clientsWithEnabledPlugin (λ client,
    startPlugin client plugin true) ;;
  dispatch (pluginLoaded plugin) ;;
  match previousVersion with
  | Some previousVersion =>
      (* unload previous version from Electron cache *)
      unloadPluginModule (details previousVersion)
  | None => ret ()
  end.

(** *** Lines 278-302 *)
Definition updateDevicePlugin (plugin : PluginDefinition) (enable : bool)
  : M () :=
  (if enable then dispatch (setDevicePluginEnabled (plugin_id plugin))
   else ret ()) ;;
  connections <- gets (λ w, connections (getState w)) ;;
  devicesWithEnabledPlugin <- gets (λ w,
    List.filter (λ d, device_supportsPlugin d (OfDefinition plugin) w)
      (devices connections)) ;;
  forEach devicesWithEnabledPlugin (λ d,
    unloadDevicePlugin d (plugin_id plugin)) ;;
  previousVersion <- gets (λ w,
    devicePlugins (plugins (getState w)) !! plugin_id plugin) ;;
  match previousVersion with
  | Some previousVersion =>
      (* unload previous version from Electron cache *)
      unloadPluginModule (details previousVersion)
  | None => ret ()
  end ;;
  dispatch (pluginLoaded plugin) ;;
  forEach devicesWithEnabledPlugin (λ d, loadDevicePlugin d plugin).

(** *** Lines 168-175 *)
Definition updatePlugin (payload : UpdatePluginActionPayload) : M () :=
  let plugin := update_plugin payload in
  let enablePlugin := enablePlugin payload in
  if isDevicePluginDefinition plugin then updateDevicePlugin plugin enablePlugin
  else updateClientPlugin plugin enablePlugin.

(** The two messages of [loadPlugin]: the logged one and the notification,
    which quotes the title. *)
Definition loadFailedLog (d : ActivatablePluginDetails) : string :=
  "Failed to load plugin " +:+ details_title d +:+ " v" +:+ details_version d.
Definition loadFailedNotification (d : ActivatablePluginDetails) : string :=
  "Failed to load plugin " +:+ dquote +:+ details_title d +:+ dquote +:+ " v"
  +:+ details_version d.

(** *** Lines 128-144 *)
Definition loadPlugin (payload : LoadPluginActionPayload) : M () :=
  try_catch
    (plugin <- requirePlugin (load_plugin payload) ;;
     let enablePlugin := enable payload in
     updatePlugin {| update_plugin := plugin; enablePlugin := enablePlugin |})
    (λ err,
     console_error (loadFailedLog (load_plugin payload)) (LogError err) ;;
     if notifyIfFailed payload then
       showErrorNotification (loadFailedNotification (load_plugin payload))
     else ret ()).

Definition uninstallFailedLog (p : PluginDefinition) : string :=
  "Failed to uninstall plugin " +:+ plugin_title p +:+ " v" +:+ plugin_version p.
Definition uninstallFailedNotification (p : PluginDefinition) : string :=
  "Failed to uninstall plugin " +:+ dquote +:+ plugin_title p +:+ dquote +:+ " v"
  +:+ plugin_version p.

(** *** Lines 146-166 *)
Definition uninstallPlugin (payload : UninstallPluginActionPayload) : M () :=
  let plugin := uninstall_plugin payload in
  try_catch
    (clients <- gets (λ w, clients (connections (getState w))) ;;
     forEach clients (λ client,
       stopPlugin client (plugin_id plugin) false ;; ret ()) ;;
     (if negb (isBundled (details plugin)) then
        unloadPluginModule (details plugin)
      else ret ()) ;;
     dispatch (pluginUninstalled (details plugin)))
    (λ err,
     console_error (uninstallFailedLog plugin) (LogError err) ;;
     showErrorNotification (uninstallFailedNotification plugin)).

(** The [switch (command.type)] of lines 102-118. *)
Definition handleCommand (command : PluginCommand) : M () :=
  match command with
  | LOAD_PLUGIN payload => loadPlugin payload
  | UNINSTALL_PLUGIN payload => uninstallPlugin payload
  | UPDATE_PLUGIN payload => updatePlugin payload
  | SWITCH_PLUGIN payload => switchPlugin payload
  | UNEXPECTED _ =>
      console_error "Unexpected plugin command" (LogCommand command)
  end.

(** The body of the loop, lines 101-123: the handler, guarded. *)
Definition guardedCommand (command : PluginCommand) : M () :=
  try_catch (handleCommand command)
    (λ e,
     (* make sure that upon failure the command is still marked processed
        to avoid unending loops! *)
     console_error "Failed to process command" (LogCommand command)).

(** *** Lines 96-126 *)
Definition processPluginCommandsQueue (queue : list PluginCommand) : M () :=
  forEach queue guardedCommand ;;
  dispatch (pluginCommandsProcessed (length queue)).

(** The app [switchClientPlugin] works on (lines 201-204): the explicit one,
    or else the app of the current selection; none if that is not truthy. *)
Definition resolvedApp (selectedApp : option string) (w : W) : option string :=
  truthy_app match selectedApp with
             | Some a => Some a
             | None => selectedAppName w
             end.

End PluginManager.

(** ** A collaborator that fails on demand

    Any host can be wrapped so that chosen calls throw instead of running:
    the plan maps the call, as it appears in the trace, to the value thrown.
    Queries are unchanged. *)
Definition FaultPlan := Event → option Error.

Definition failing {W A} (ev : Event) (op : W → Res A * W)
  : W * FaultPlan → Res A * (W * FaultPlan) :=
  λ wp,
    match wp.2 ev with
    | Some e => (Throw e, wp)
    | None => ((op wp.1).1, ((op wp.1).2, wp.2))
    end.

#[export] Instance faulty_host {W} `{!Host W} : Host (W * FaultPlan) := {|
  getState wp := getState wp.1;
  host_dispatch a := failing (EvDispatch a) (host_dispatch a);
  host_requirePlugin d := failing (EvRequirePlugin d) (host_requirePlugin d);
  host_unloadModule path := failing (EvUnloadModule path) (host_unloadModule path);
  client_supportsPlugin c pid wp := client_supportsPlugin c pid wp.1;
  client_isBackgroundPlugin c pid wp := client_isBackgroundPlugin c pid wp.1;
  client_startPluginIfNeeded c p :=
    failing (EvStartPluginIfNeeded c p) (client_startPluginIfNeeded c p);
  client_stopPluginIfNeeded c pid :=
    failing (EvStopPluginIfNeeded c pid) (client_stopPluginIfNeeded c pid);
  client_initPlugin c pid :=
    failing (EvInitPlugin c pid) (client_initPlugin c pid);
  client_deinitPlugin c pid :=
    failing (EvDeinitPlugin c pid) (client_deinitPlugin c pid);
  device_supportsPlugin d p wp := device_supportsPlugin d p wp.1;
  device_loadDevicePlugin d p :=
    failing (EvLoadDevicePlugin d p) (device_loadDevicePlugin d p);
  device_unloadDevicePlugin d pid :=
    failing (EvUnloadDevicePlugin d pid) (device_unloadDevicePlugin d pid);
  deconstructClientId := deconstructClientId (W := W);
  getPluginKey := getPluginKey (W := W);
  defaultEnabledBackgroundPlugins := defaultEnabledBackgroundPlugins (W := W);
|}.

(** ** The store, the clients and the devices as the specification
    describes them *)

Module SpecHost.

(** The owner of a plugin instance. *)
Inductive Owner :=
| OwnerClient (clientId : string)
| OwnerDevice (deviceSerial : string).

#[export] Instance Owner_eq_dec : EqDecision Owner.
Proof. solve_decision. Defined.

#[export] Instance Owner_countable : Countable Owner.
Proof.
  refine (inj_countable'
    (λ o, match o with OwnerClient s => inl s | OwnerDevice s => inr s end)
    (λ x, match x with inl s => OwnerClient s | inr s => OwnerDevice s end) _).
  by intros [].
Defined.

(** What an instrumented plugin observes: its instance being set up, its
    connect/activate and disconnect/deactivate hooks, its teardown; and the
    init and deinit signals sent over the wire. *)
Inductive Hook :=
| HCreated (o : Owner) (pluginId : string) (i : nat)
| HConnected (o : Owner) (pluginId : string) (i : nat)
| HDisconnected (o : Owner) (pluginId : string) (i : nat)
| HDestroyed (o : Owner) (pluginId : string) (i : nat)
| HSignal (o : Owner) (method : string) (pluginId : string).

(** An instance object: [ident] is its identity. *)
Record Instance := { ident : nat; connected : bool }.

Record SpecWorld := {
  store : State;
  resolvable : gmap string PluginDefinition;
  supported : gset (Owner * string);
  background : gset (string * string);
  instances : gmap (Owner * string) Instance;
  nextInstance : nat;
  hooks : list Hook;
}.

Definition withStore (w : SpecWorld) (s : State) : SpecWorld :=
  {| store := s; resolvable := resolvable w; supported := supported w;
     background := background w; instances := instances w;
     nextInstance := nextInstance w; hooks := hooks w |}.

(** Replace the instances and the counter, append to the hook log. *)
Definition withLife (w : SpecWorld) (ins : gmap (Owner * string) Instance)
    (next : nat) (hs : list Hook) : SpecWorld :=
  {| store := store w; resolvable := resolvable w; supported := supported w;
     background := background w; instances := ins;
     nextInstance := next; hooks := hooks w ++ hs |}.

(** Modelled from the spec: [Client.startPluginIfNeeded] and
    [BaseDevice.loadDevicePlugin] are not part of the sources at hand.
    "Start if needed" is an idempotent instantiate+connect; an activation
    creates a fresh instance object, never a reused one. *)
Definition instantiate (o : Owner) (pluginId : string) (w : SpecWorld)
  : SpecWorld :=
  match instances w !! (o, pluginId) with
  | Some _ => w
  | None =>
      let i := nextInstance w in
      withLife w
        (<[(o, pluginId) := {| ident := i; connected := true |}]> (instances w))
        (S i)
        [HCreated o pluginId i; HConnected o pluginId i]
  end.

(** Modelled from the spec: [Client.stopPluginIfNeeded] and
    [BaseDevice.unloadDevicePlugin] are not part of the sources at hand.
    "Stop if needed" is an idempotent disconnect+destroy. *)
Definition destroy (o : Owner) (pluginId : string) (w : SpecWorld)
  : SpecWorld :=
  match instances w !! (o, pluginId) with
  | Some inst =>
      withLife w (delete (o, pluginId) (instances w)) (nextInstance w)
        ((if connected inst then [HDisconnected o pluginId (ident inst)] else [])
         ++ [HDestroyed o pluginId (ident inst)])
  | None => w
  end.

(** Modelled from the spec: the connect hook of an instance is not part of
    the sources at hand.  The hooks alternate: connecting a connected
    instance does nothing. *)
Definition connect (o : Owner) (pluginId : string) (w : SpecWorld)
  : SpecWorld :=
  match instances w !! (o, pluginId) with
  | Some inst =>
      if connected inst then w
      else withLife w
             (<[(o, pluginId) := {| ident := ident inst; connected := true |}]>
                (instances w))
             (nextInstance w) [HConnected o pluginId (ident inst)]
  | None => w
  end.

(** Modelled from the spec: the disconnect hook, as [connect]. *)
Definition disconnect (o : Owner) (pluginId : string) (w : SpecWorld)
  : SpecWorld :=
  match instances w !! (o, pluginId) with
  | Some inst =>
      if connected inst then
        withLife w
          (<[(o, pluginId) := {| ident := ident inst; connected := false |}]>
             (instances w))
          (nextInstance w) [HDisconnected o pluginId (ident inst)]
      else w
  | None => w
  end.

Definition signal (o : Owner) (method pluginId : string) (w : SpecWorld)
  : SpecWorld :=
  withLife w (instances w) (nextInstance w) [HSignal o method pluginId].

(** Modelled from the spec: [Client.initPlugin] is not part of the sources at
    hand; it "explicitly sends an init signal" and the background plugin is
    connected by it. *)
Definition spec_initPlugin (c : Client) (pluginId : string) (w : SpecWorld)
  : SpecWorld :=
  connect (OwnerClient (client_id c)) pluginId
    (signal (OwnerClient (client_id c)) "init" pluginId w).

(** Modelled from the spec: [Client.deinitPlugin] is not part of the sources
    at hand; the teardown acts on the still-connected instance, then the
    deinit signal is sent. *)
Definition spec_deinitPlugin (c : Client) (pluginId : string) (w : SpecWorld)
  : SpecWorld :=
  signal (OwnerClient (client_id c)) "deinit" pluginId
    (disconnect (OwnerClient (client_id c)) pluginId w).

(** *** The reducers *)

Definition withEnabledPlugins (s : State) (e : gmap string (list string))
  : State :=
  {| connections :=
       {| clients := clients (connections s);
          devices := devices (connections s);
          selectedAppId := selectedAppId (connections s);
          enabledPlugins := e;
          enabledDevicePlugins := enabledDevicePlugins (connections s) |};
     plugins := plugins s |}.

Definition withEnabledDevicePlugins (s : State) (e : gset string) : State :=
  {| connections :=
       {| clients := clients (connections s);
          devices := devices (connections s);
          selectedAppId := selectedAppId (connections s);
          enabledPlugins := enabledPlugins (connections s);
          enabledDevicePlugins := e |};
     plugins := plugins s |}.

Definition withPlugins (s : State) (p : Plugins) : State :=
  {| connections := connections s; plugins := p |}.

(** Modelled from the spec: the reducers of [reducers/connections] and
    [reducers/plugins] are not part of the sources at hand.  [setPluginEnabled]
    "marks the plugin enabled" for the app and [setPluginDisabled] marks it
    disabled; the device variants work on the global set; [pluginLoaded]
    "registers the new plugin definition as current for its id";
    [pluginUninstalled] removes it.  The message queues and the command
    backlog are outside the slices kept here. *)
Definition reducer (a : Action) (s : State) : State :=
  match a with
  | setPluginEnabled pluginId selectedApp =>
      let l := default [] (enabledPlugins (connections s) !! selectedApp) in
      withEnabledPlugins s
        (<[selectedApp := if includes l pluginId then l else l ++ [pluginId]]>
           (enabledPlugins (connections s)))
  | setPluginDisabled pluginId selectedApp =>
      match enabledPlugins (connections s) !! selectedApp with
      | Some l =>
          withEnabledPlugins s
            (<[selectedApp := List.filter (λ x, negb (String.eqb x pluginId)) l]>
               (enabledPlugins (connections s)))
      | None => s
      end
  | setDevicePluginEnabled pluginId =>
      withEnabledDevicePlugins s
        ({[pluginId]} ∪ enabledDevicePlugins (connections s))
  | setDevicePluginDisabled pluginId =>
      withEnabledDevicePlugins s
        (enabledDevicePlugins (connections s) ∖ {[pluginId]})
  | pluginLoaded p =>
      if isDevicePluginDefinition p then
        withPlugins s
          {| clientPlugins := clientPlugins (plugins s);
             devicePlugins := <[plugin_id p := p]> (devicePlugins (plugins s)) |}
      else
        withPlugins s
          {| clientPlugins := <[plugin_id p := p]> (clientPlugins (plugins s));
             devicePlugins := devicePlugins (plugins s) |}
  | pluginUninstalled d =>
      withPlugins s
        {| clientPlugins := delete (details_id d) (clientPlugins (plugins s));
           devicePlugins := delete (details_id d) (devicePlugins (plugins s)) |}
  | clearMessageQueue _ => s
  | pluginCommandsProcessed _ => s
  end.

(** *** The helpers of [flipper-common] and [utils], in one concrete form *)

(** The separator [#] (code 35). *)
Definition hash_char : Ascii.ascii :=
  Ascii.Ascii true true false false false true false false.

Fixpoint before_hash (s : string) : string :=
  match s with
  | EmptyString => EmptyString
  | String a s' =>
      if Ascii.eqb a hash_char then EmptyString else String a (before_hash s')
  end.

Fixpoint after_hash (s : string) : string :=
  match s with
  | EmptyString => EmptyString
  | String a s' => if Ascii.eqb a hash_char then s' else after_hash s'
  end.

(** Modelled from the spec: [deconstructClientId] of [flipper-common] is not
    part of the sources at hand; a client id lists app, os, device and device
    id, separated by [#]. *)
Definition spec_deconstructClientId (clientId : string) : ClientIdConstituents :=
  {| cid_app := before_hash clientId;
     cid_os := before_hash (after_hash clientId);
     cid_device := before_hash (after_hash (after_hash clientId));
     cid_device_id := after_hash (after_hash (after_hash clientId)) |}.

(** Modelled from the spec: [getPluginKey] of [utils/pluginKey] is not part of
    the sources at hand; the key names the plugin of one client. *)
Definition spec_getPluginKey (clientId serial pluginId : string) : string :=
  clientId +:+ "#" +:+ pluginId.

Definition pluginRefId (p : PluginOrDetails) : string :=
  match p with
  | OfDefinition p => plugin_id p
  | OfDetails d => details_id d
  end.

(** The collaborators of the specification: nothing throws but the module
    loader, when the descriptor does not resolve. *)
#[export] Instance spec_host : Host SpecWorld := {|
  getState := store;
  host_dispatch a w := (Ok (), withStore w (reducer a (store w)));
  host_requirePlugin d w :=
    match resolvable w !! entry d with
    | Some p => (Ok p, w)
    | None => (Throw "ResolutionError", w)
    end;
  host_unloadModule path w := (Ok (), w);
  client_supportsPlugin c pid w :=
    bool_decide ((OwnerClient (client_id c), pid) ∈ supported w);
  client_isBackgroundPlugin c pid w :=
    bool_decide ((client_id c, pid) ∈ background w);
  client_startPluginIfNeeded c p w :=
    (Ok (), instantiate (OwnerClient (client_id c)) (plugin_id p) w);
  client_stopPluginIfNeeded c pid w :=
    (Ok (), destroy (OwnerClient (client_id c)) pid w);
  client_initPlugin c pid w := (Ok (), spec_initPlugin c pid w);
  client_deinitPlugin c pid w := (Ok (), spec_deinitPlugin c pid w);
  device_supportsPlugin d p w :=
    bool_decide ((OwnerDevice (serial d), pluginRefId p) ∈ supported w);
  device_loadDevicePlugin d p w :=
    (Ok (), instantiate (OwnerDevice (serial d)) (plugin_id p) w);
  device_unloadDevicePlugin d pid w :=
    (Ok (), destroy (OwnerDevice (serial d)) pid w);
  deconstructClientId := spec_deconstructClientId;
  getPluginKey := spec_getPluginKey;
  defaultEnabledBackgroundPlugins := ["Navigation"];
|}.

(** *** The protocol of the hooks

    The invariant of the specification as a checker of hook logs: an
    instance is set up with a fresh identity where its owner has none for the
    plugin; it is connected only while disconnected and disconnected only
    while connected; it is destroyed only while disconnected, and that is its
    end.  [live] is the table of instances the log leaves, [born] the number
    of identities used. *)
Record Replay := { live : gmap (Owner * string) Instance; born : nat }.

Definition setConnected (σ : Replay) (o : Owner) (pluginId : string)
    (i : nat) (b : bool) : Replay :=
  {| live := <[(o, pluginId) := {| ident := i; connected := b |}]> (live σ);
     born := born σ |}.

Definition replay_step (σ : Replay) (h : Hook) : option Replay :=
  match h with
  | HCreated o pid i =>
      match live σ !! (o, pid) with
      | None =>
          if decide (i = born σ) then
            Some {| live := <[(o, pid) := {| ident := i; connected := false |}]>
                              (live σ);
                    born := S (born σ) |}
          else None
      | Some _ => None
      end
  | HConnected o pid i =>
      match live σ !! (o, pid) with
      | Some inst =>
          if decide (ident inst = i) then
            if connected inst then None else Some (setConnected σ o pid i true)
          else None
      | None => None
      end
  | HDisconnected o pid i =>
      match live σ !! (o, pid) with
      | Some inst =>
          if decide (ident inst = i) then
            if connected inst then Some (setConnected σ o pid i false) else None
          else None
      | None => None
      end
  | HDestroyed o pid i =>
      match live σ !! (o, pid) with
      | Some inst =>
          if decide (ident inst = i) then
            if connected inst then None
            else Some {| live := delete (o, pid) (live σ); born := born σ |}
          else None
      | None => None
      end
  | HSignal _ _ _ => Some σ
  end.

Fixpoint replay_from (σ : Replay) (hs : list Hook) : option Replay :=
  match hs with
  | [] => Some σ
  | h :: hs' =>
      match replay_step σ h with
      | Some σ' => replay_from σ' hs'
      | None => None
      end
  end.

Definition replay (hs : list Hook) : option Replay :=
  replay_from {| live := ∅; born := 0 |} hs.

(** Instance [i] of [pluginId] on [o] is live after the log [h]. *)
Definition liveIn (h : list Hook) (o : Owner) (pluginId : string) (i : nat)
  : Prop :=
  HCreated o pluginId i ∈ h ∧ HDestroyed o pluginId i ∉ h.

(** The connect ([true]) and disconnect ([false]) hooks of instance [i]. *)
Definition connectionOf (i : nat) (h : Hook) : option bool :=
  match h with
  | HConnected _ _ j => if decide (i = j) then Some true else None
  | HDisconnected _ _ j => if decide (i = j) then Some false else None
  | _ => None
  end.

(** [alternates false l] is [Some b] when [l] alternates and starts with a
    connect; [b] tells whether it ends connected. *)
Fixpoint alternates (isConnected : bool) (l : list bool) : option bool :=
  match l with
  | [] => Some isConnected
  | b :: l' => if eqb b isConnected then None else alternates b l'
  end.

(** Identities in the table are used ones, and no two entries share one. *)
Definition wf (σ : Replay) : Prop :=
  (∀ key inst, live σ !! key = Some inst → (ident inst < born σ)%nat)
  ∧ (∀ k1 k2 i1 i2,
       live σ !! k1 = Some i1 → live σ !! k2 = Some i2 →
       ident i1 = ident i2 → k1 = k2).

(** The identity a hook is about. *)
Definition hookIdent (e : Hook) : option nat :=
  match e with
  | HCreated _ _ i | HConnected _ _ i | HDisconnected _ _ i
  | HDestroyed _ _ i => Some i
  | HSignal _ _ _ => None
  end.

(** Whether some entry of the table holds instance [i] connected. *)
Definition connectedIn (σ : Replay) (i : nat) : Prop :=
  ∃ key, live σ !! key = Some {| ident := i; connected := true |}.

(** Instance [i] has been set up and is in the table no more. *)
Definition dead (σ : Replay) (i : nat) : Prop :=
  (i < born σ)%nat ∧ ∀ key inst, live σ !! key = Some inst → ident inst ≠ i.

(** The hook log of a world is an accepted one, and the table of instances
    and the identity counter are what the log leaves. *)
Definition consistent (w : SpecWorld) : Prop :=
  replay (hooks w) = Some {| live := instances w; born := nextInstance w |}.

(** The table of instances, by identity only. *)
Definition idents (w : SpecWorld) : gmap (Owner * string) nat :=
  ident <$> instances w.

(** *** Histories *)

(** What happens to a world: the start and stop primitives, a device plugin
    loaded or unloaded, a background plugin connected or disconnected by
    the selection, and whole drains of the command queue. *)
Inductive LifecycleOp :=
| OpStartPlugin (c : Client) (p : PluginDefinition) (force : bool)
| OpStopPlugin (c : Client) (pluginId : string) (force : bool)
| OpInitPlugin (c : Client) (pluginId : string)
| OpDeinitPlugin (c : Client) (pluginId : string)
| OpLoadDevicePlugin (d : Device) (p : PluginDefinition)
| OpUnloadDevicePlugin (d : Device) (pluginId : string)
| OpDrain (queue : list PluginCommand).

Definition runOp (op : LifecycleOp) : M SpecWorld () :=
  match op with
  | OpStartPlugin c p force => startPlugin c p force
  | OpStopPlugin c pid force => (stopPlugin c pid force ;; ret ())%M
  | OpInitPlugin c pid => initPlugin c pid
  | OpDeinitPlugin c pid => deinitPlugin c pid
  | OpLoadDevicePlugin d p => loadDevicePlugin d p
  | OpUnloadDevicePlugin d pid => unloadDevicePlugin d pid
  | OpDrain queue => processPluginCommandsQueue queue
  end.

Definition history (ops : list LifecycleOp) (w : SpecWorld) : SpecWorld :=
  foldl (λ w op, world (runOp op w)) w ops.

(** A computation that leaves a consistent world consistent. *)
Definition keeps {A} (m : M SpecWorld A) : Prop :=
  ∀ w, consistent w → consistent (world (m w)).

(** A world in which no plugin has been started yet. *)
Definition pristine (w : SpecWorld) : Prop :=
  instances w = ∅ ∧ nextInstance w = 0 ∧ hooks w = [].

End SpecHost.

(** ** The plugin container and deep links, as the specification describes
    them *)

Module DeepLink.

(** The store slice the container renders from. *)
Record Selection := {
  selectedPlugin : option string;
  deepLinkPayload : option string;
}.

(** [active] is the plugin the container shows, [lastDeeplink] the payload
    last handed to its instance, [linksSeen] every delivery so far. *)
Record Container := {
  selection : Selection;
  active : option string;
  lastDeeplink : option string;
  linksSeen : list (string * string);
}.

Inductive StoreUpdate :=
| SelectPlugin (plugin : string) (payload : option string)
| OtherUpdate.

Definition initial : Container :=
  {| selection := {| selectedPlugin := None; deepLinkPayload := None |};
     active := None; lastDeeplink := None; linksSeen := [] |}.

(** Modelled from the spec: the container ([PluginContainer]) and the
    deep-link trigger of a plugin instance are not part of the sources at
    hand.  A render first follows the selection: when another plugin becomes
    the shown one, the dedup scope of the one before ends.  Then the payload
    of the selection, if there is one and the shown plugin has an instance,
    is delivered unless it is the payload this instance was last given. *)
Definition render (hasInstance : string → bool) (c : Container) : Container :=
  let sel := selection c in
  let last :=
    if decide (active c = selectedPlugin sel) then lastDeeplink c else None in
  match selectedPlugin sel, deepLinkPayload sel with
  | Some p, Some link =>
      if hasInstance p && negb (bool_decide (last = Some link)) then
        {| selection := sel; active := Some p; lastDeeplink := Some link;
           linksSeen := linksSeen c ++ [(p, link)] |}
      else
        {| selection := sel; active := Some p; lastDeeplink := last;
           linksSeen := linksSeen c |}
  | _, _ =>
      {| selection := sel; active := selectedPlugin sel; lastDeeplink := last;
         linksSeen := linksSeen c |}
  end.

(** Every store update re-renders the container; [selectPlugin] changes the
    selection first. *)
Definition step (hasInstance : string → bool) (c : Container)
    (u : StoreUpdate) : Container :=
  match u with
  | SelectPlugin plugin payload =>
      render hasInstance
        {| selection := {| selectedPlugin := Some plugin;
                           deepLinkPayload := payload |};
           active := active c; lastDeeplink := lastDeeplink c;
           linksSeen := linksSeen c |}
  | OtherUpdate => render hasInstance c
  end.

Definition run (hasInstance : string → bool) (us : list StoreUpdate)
  : Container :=
  foldl (step hasInstance) initial us.

(** How often [payload] reached the handler of [plugin]. *)
Definition delivered (c : Container) (plugin payload : string) : nat :=
  length (List.filter (λ d, bool_decide (d = (plugin, payload))) (linksSeen c)).

End DeepLink.

(** ** Observations on traces *)

Definition isProcessedDispatch (ev : Event) : bool :=
  match ev with
  | EvDispatch (pluginCommandsProcessed _) => true
  | _ => false
  end.

Definition requireOf (ev : Event) : option ActivatablePluginDetails :=
  match ev with
  | EvRequirePlugin d => Some d
  | _ => None
  end.

Definition loadOf (c : PluginCommand) : option ActivatablePluginDetails :=
  match c with
  | LOAD_PLUGIN payload => Some (load_plugin payload)
  | _ => None
  end.

(** What [loadPlugin] leaves behind when it catches [e]: the log entry and,
    if asked for, the notification. *)
Definition loadFailureReport (payload : LoadPluginActionPayload) (e : Error)
  : list Event :=
  EvConsoleError (loadFailedLog (load_plugin payload)) (LogError e)
  :: (if notifyIfFailed payload then
        [EvShowErrorNotification (loadFailedNotification (load_plugin payload))]
      else []).

(** A computation all of whose calls satisfy [P], whatever the host does. *)
Definition emits {W A} (P : Event → Prop) (m : M W A) : Prop :=
  ∀ w, Forall P (trace (m w)).

(** The calls selected by [keep] are, in order, a prefix of [expected], and
    all of [expected] when the computation returns. *)
Definition follows {W A} (keep : Event → bool) (expected : list Event)
    (o : Out W A) : Prop :=
  ∃ rest,
    expected = List.filter keep (trace o) ++ rest
    ∧ (∀ a, res o = Ok a → rest = []).

(** The calls that bring a plugin up on a client, and those that take it
    down. *)
Definition isStartCall (ev : Event) : bool :=
  match ev with
  | EvStartPluginIfNeeded _ _ | EvInitPlugin _ _ => true
  | _ => false
  end.

Definition isStopCall (ev : Event) : bool :=
  match ev with
  | EvStopPluginIfNeeded _ _ | EvDeinitPlugin _ _ => true
  | _ => false
  end.

Definition isIfNeededCall (ev : Event) : bool :=
  match ev with
  | EvStartPluginIfNeeded _ _ | EvStopPluginIfNeeded _ _ => true
  | _ => false
  end.

(** Everything but the init and deinit signals of background plugins. *)
Definition notBackgroundSignal (ev : Event) : bool :=
  match ev with
  | EvInitPlugin _ _ | EvDeinitPlugin _ _ => false
  | _ => true
  end.

Definition isLoadDeviceCall (ev : Event) : bool :=
  match ev with
  | EvLoadDevicePlugin _ _ => true
  | _ => false
  end.

Definition isUnloadDeviceCall (ev : Event) : bool :=
  match ev with
  | EvUnloadDevicePlugin _ _ => true
  | _ => false
  end.

Definition isUnloadModule (ev : Event) : bool :=
  match ev with
  | EvUnloadModule _ => true
  | _ => false
  end.

Definition everyCall (ev : Event) : bool := true.

(** What [unloadPluginModule] does for a previous version, if there is one. *)
Definition unloadOfPrevious (previousVersion : option PluginDefinition)
  : list Event :=
  match previousVersion with
  | Some pv =>
      if isBundled (details pv) then [] else [EvUnloadModule (entry (details pv))]
  | None => []
  end.

(** The previous version as [updateClientPlugin] reads it (line 264): after
    the [if (enable)] block, before the stop pass. *)
Definition previousClientVersion {W} `{!Host W} (plugin : PluginDefinition)
    (enable : bool) (w : W) : option PluginDefinition :=
  clientPlugins (plugins (getState (world (enableForSelectedApp plugin enable w))))
    !! plugin_id plugin.

(** The previous version as [updateDevicePlugin] reads it (line 293): after
    the unload pass. *)
Definition previousDeviceVersion {W} `{!Host W} (plugin : PluginDefinition)
    (enable : bool) (w : W) : option PluginDefinition :=
  let w1 :=
    world ((if enable then dispatch (setDevicePluginEnabled (plugin_id plugin))
            else ret ()) w) in
  let ds :=
    List.filter (λ d, device_supportsPlugin d (OfDefinition plugin) w1)
      (devices (connections (getState w1))) in
  let w2 :=
    world (forEach ds (λ d, unloadDevicePlugin d (plugin_id plugin)) w1) in
  devicePlugins (plugins (getState w2)) !! plugin_id plugin.

(** The details a drain of [queue] may hand to [unloadPluginModule]: those of
    a plugin that the queue uninstalls, and those of a version registered in
    the store. *)
Definition unloadCandidate {W} `{!Host W} (queue : list PluginCommand)
    (d : ActivatablePluginDetails) : Prop :=
  (∃ payload,
     UNINSTALL_PLUGIN payload ∈ queue ∧ d = details (uninstall_plugin payload))
  ∨ (∃ (w : W) pid pv,
       (clientPlugins (plugins (getState w)) !! pid = Some pv
        ∨ devicePlugins (plugins (getState w)) !! pid = Some pv)
       ∧ d = details pv).

(** If [ev] unloads a module, the module belongs to a candidate that is not
    bundled. *)
Definition unloadsOnlyUnbundled {W} `{!Host W} (queue : list PluginCommand)
    (ev : Event) : Prop :=
  ∀ path, ev = EvUnloadModule path →
    ∃ d, isBundled d = false ∧ entry d = path ∧ unloadCandidate (W := W) queue d.

(** One drain of a snapshot, told command by command: the handler of the
    head runs in the state the commands before it left; whether it returns
    or throws, the rest of the snapshot is drained after it. *)
Inductive Drained {W} `{!Host W}
  : list PluginCommand → W → W → list Event → Prop :=
| Drained_nil w : Drained [] w w []
| Drained_ok c q w w' t :
    res (handleCommand c w) = Ok () →
    Drained q (world (handleCommand c w)) w' t →
    Drained (c :: q) w w' (trace (handleCommand c w) ++ t)
| Drained_caught c q w e w' t :
    res (handleCommand c w) = Throw e →
    Drained q (world (handleCommand c w)) w' t →
    Drained (c :: q) w w'
      (trace (handleCommand c w)
       ++ EvConsoleError "Failed to process command" (LogCommand c) :: t).

(** The messages logged and shown, in order. *)
Definition messageOf (ev : Event) : option string :=
  match ev with
  | EvConsoleError msg _ => Some msg
  | EvShowErrorNotification msg => Some msg
  | _ => None
  end.

(** ** Concrete worlds *)

Module Fixtures.
Import SpecHost.

Definition testDetails : ActivatablePluginDetails :=
  {| details_id := "TestPlugin"; details_title := "TestPlugin";
     details_version := "1.0.0"; isBundled := false;
     entry := "/plugins/TestPlugin/dist/bundle.js" |}.

Definition testPlugin : PluginDefinition :=
  {| plugin_id := "TestPlugin"; plugin_title := "TestPlugin";
     plugin_version := "1.0.0"; details := testDetails;
     isDevicePlugin := false |}.

(** The version of the plugin that ships with the application. *)
Definition bundledDetails : ActivatablePluginDetails :=
  {| details_id := "TestPlugin"; details_title := "TestPlugin";
     details_version := "0.9.0"; isBundled := true;
     entry := "/static/defaultPlugins/TestPlugin/dist/bundle.js" |}.

Definition bundledPlugin : PluginDefinition :=
  {| plugin_id := "TestPlugin"; plugin_title := "TestPlugin";
     plugin_version := "0.9.0"; details := bundledDetails;
     isDevicePlugin := false |}.

Definition logsDetails : ActivatablePluginDetails :=
  {| details_id := "DeviceLogs"; details_title := "Logs";
     details_version := "1.0.0"; isBundled := true;
     entry := "/static/defaultPlugins/DeviceLogs/dist/bundle.js" |}.

Definition logsPlugin : PluginDefinition :=
  {| plugin_id := "DeviceLogs"; plugin_title := "Logs";
     plugin_version := "1.0.0"; details := logsDetails;
     isDevicePlugin := true |}.

Definition testClient : Client :=
  {| client_id := "TestApp#Android#MockAndroidDevice#serial";
     query := {| app := "TestApp"; device_id := "serial" |} |}.

Definition testDevice : Device := {| serial := "serial" |}.

(** One client and one device; the plugin is installed in its bundled
    version, supported by the client as a background plugin, and not
    enabled; nothing runs yet. *)
Definition world0 : SpecWorld :=
  {| store :=
       {| connections :=
            {| clients := [testClient]; devices := [testDevice];
               selectedAppId := Some (client_id testClient);
               enabledPlugins := ∅; enabledDevicePlugins := ∅ |};
          plugins :=
            {| clientPlugins := {[ "TestPlugin" := bundledPlugin ]};
               devicePlugins := {[ "DeviceLogs" := logsPlugin ]} |} |};
     resolvable := {[ entry testDetails := testPlugin ]};
     supported := {[ (OwnerClient (client_id testClient), "TestPlugin");
                     (OwnerDevice (serial testDevice), "DeviceLogs") ]};
     background := {[ (client_id testClient, "TestPlugin") ]};
     instances := ∅; nextInstance := 0; hooks := [] |}.

(** The same, with the plugin enabled for the app. *)
Definition worldEnabled : SpecWorld :=
  withStore world0
    (reducer (setPluginEnabled "TestPlugin" "TestApp") (store world0)).

(** A store that refuses [pluginLoaded]. *)
Definition storeDown : FaultPlan := λ ev,
  match ev with
  | EvDispatch (pluginLoaded _) => Some "store is down"
  | _ => None
  end.

(** A client on which no plugin can be set up. *)
Definition setupFails : FaultPlan := λ ev,
  match ev with
  | EvStartPluginIfNeeded _ _ => Some "setup failed"
  | _ => None
  end.

Definition loadTest : LoadPluginActionPayload :=
  {| load_plugin := testDetails; enable := true; notifyIfFailed := true |}.

Definition switchTest : SwitchPluginActionPayload :=
  {| switch_plugin := testPlugin; selectedApp := Some "TestApp" |}.

End Fixtures.

(** ** Further observations *)

(** What [unloadPluginModule] does for the details of a plugin. *)
Definition unloadOfDetails (d : ActivatablePluginDetails) : list Event :=
  if isBundled d then [] else [EvUnloadModule (entry d)].

(** What [uninstallPlugin] leaves behind when it catches [e]: the log entry
    and the notification. *)
Definition uninstallFailureReport (plugin : PluginDefinition) (e : Error)
  : list Event :=
  [EvConsoleError (uninstallFailedLog plugin) (LogError e);
   EvShowErrorNotification (uninstallFailedNotification plugin)].

(** The [setPluginEnabled] dispatch of lines 250-255, if it is made. *)
Definition enableOfSelectedApp {W} `{!Host W} (plugin : PluginDefinition)
    (enable : bool) (w : W) : list Event :=
  if enable then
    match truthy_app (selectedAppName w) with
    | Some a => [EvDispatch (setPluginEnabled (plugin_id plugin) a)]
    | None => []
    end
  else [].

(** Calls on clients and dispatches about client plugins. *)
Definition isClientCall (ev : Event) : bool :=
  match ev with
  | EvStartPluginIfNeeded _ _ | EvStopPluginIfNeeded _ _
  | EvInitPlugin _ _ | EvDeinitPlugin _ _ => true
  | EvDispatch (setPluginEnabled _ _) | EvDispatch (setPluginDisabled _ _)
  | EvDispatch (clearMessageQueue _) => true
  | _ => false
  end.

(** Calls on devices and dispatches about device plugins. *)
Definition isDeviceCall (ev : Event) : bool :=
  match ev with
  | EvLoadDevicePlugin _ _ | EvUnloadDevicePlugin _ _ => true
  | EvDispatch (setDevicePluginEnabled _)
  | EvDispatch (setDevicePluginDisabled _) => true
  | _ => false
  end.

(** The dispatches that flip an enabled flag of the registry. *)
Definition isFlagDispatch (ev : Event) : bool :=
  match ev with
  | EvDispatch (setPluginEnabled _ _) | EvDispatch (setPluginDisabled _ _)
  | EvDispatch (setDevicePluginEnabled _)
  | EvDispatch (setDevicePluginDisabled _) => true
  | _ => false
  end.

(** The calls and dispatches that handling [command] may make: those of its
    kind of command, on its own plugin.  For a load the plugin is whatever
    the module resolves to. *)
Definition callOfCommand (command : PluginCommand) (ev : Event) : Prop :=
  match command with
  | LOAD_PLUGIN payload =>
      match ev with
      | EvRequirePlugin d => d = load_plugin payload
      | EvDispatch (setPluginEnabled _ _)
      | EvDispatch (setDevicePluginEnabled _)
      | EvDispatch (pluginLoaded _)
      | EvStartPluginIfNeeded _ _ | EvStopPluginIfNeeded _ _
      | EvInitPlugin _ _ | EvDeinitPlugin _ _
      | EvLoadDevicePlugin _ _ | EvUnloadDevicePlugin _ _
      | EvUnloadModule _ => True
      | EvConsoleError msg _ => msg = loadFailedLog (load_plugin payload)
      | EvShowErrorNotification msg =>
          msg = loadFailedNotification (load_plugin payload)
          ∧ notifyIfFailed payload = true
      | _ => False
      end
  | UPDATE_PLUGIN payload =>
      let p := update_plugin payload in
      match ev with
      | EvDispatch (setPluginEnabled pid _) =>
          pid = plugin_id p ∧ enablePlugin payload = true
      | EvDispatch (setDevicePluginEnabled pid) =>
          pid = plugin_id p ∧ enablePlugin payload = true
      | EvDispatch (pluginLoaded q) => q = p
      | EvStartPluginIfNeeded _ q => q = p
      | EvLoadDevicePlugin _ q => q = p
      | EvStopPluginIfNeeded _ pid | EvInitPlugin _ pid | EvDeinitPlugin _ pid
      | EvUnloadDevicePlugin _ pid => pid = plugin_id p
      | EvUnloadModule _ => True
      | _ => False
      end
  | UNINSTALL_PLUGIN payload =>
      let p := uninstall_plugin payload in
      match ev with
      | EvStopPluginIfNeeded _ pid | EvDeinitPlugin _ pid => pid = plugin_id p
      | EvUnloadModule path =>
          path = entry (details p) ∧ isBundled (details p) = false
      | EvDispatch (pluginUninstalled d) => d = details p
      | EvConsoleError msg _ => msg = uninstallFailedLog p
      | EvShowErrorNotification msg => msg = uninstallFailedNotification p
      | _ => False
      end
  | SWITCH_PLUGIN payload =>
      let p := switch_plugin payload in
      match ev with
      | EvDispatch (setPluginEnabled pid _)
      | EvDispatch (setPluginDisabled pid _)
      | EvDispatch (setDevicePluginEnabled pid)
      | EvDispatch (setDevicePluginDisabled pid) => pid = plugin_id p
      | EvDispatch (clearMessageQueue _) => True
      | EvStartPluginIfNeeded _ q | EvLoadDevicePlugin _ q => q = p
      | EvStopPluginIfNeeded _ pid | EvInitPlugin _ pid | EvDeinitPlugin _ pid
      | EvUnloadDevicePlugin _ pid => pid = plugin_id p
      | _ => False
      end
  | UNEXPECTED _ =>
      ev = EvConsoleError "Unexpected plugin command" (LogCommand command)
  end.

(** What a background signal of the trace tells: a deinit is for a plugin
    outside the default-enabled set; both are for a plugin the client has
    reported as a background plugin. *)
Definition signalJustified {W} `{!Host W} (ev : Event) : Prop :=
  match ev with
  | EvDeinitPlugin c pid =>
      pid ∉ defaultEnabledBackgroundPlugins (W := W)
      ∧ ∃ w : W, client_isBackgroundPlugin c pid w = true
  | EvInitPlugin c pid => ∃ w : W, client_isBackgroundPlugin c pid w = true
  | _ => True
  end.

(** The same for a switch or an uninstall, which never force a signal. *)
Definition signalUnforced {W} `{!Host W} (ev : Event) : Prop :=
  match ev with
  | EvDeinitPlugin _ pid | EvInitPlugin _ pid =>
      pid ∉ defaultEnabledBackgroundPlugins (W := W)
  | _ => True
  end.

Definition isConsoleError (ev : Event) : bool :=
  match ev with
  | EvConsoleError _ _ => true
  | _ => false
  end.

Definition isNotification (ev : Event) : bool :=
  match ev with
  | EvShowErrorNotification _ => true
  | _ => false
  end.

(** Collaborators none of whose commands ever throws. *)
Record NeverThrows (W : Type) `{!Host W} : Prop := {
  dispatch_returns : ∀ a (w : W), (host_dispatch a w).1 = Ok ();
  requirePlugin_returns : ∀ d (w : W), ∃ p, (host_requirePlugin d w).1 = Ok p;
  unloadModule_returns : ∀ path (w : W), (host_unloadModule path w).1 = Ok ();
  startPluginIfNeeded_returns :
    ∀ c p (w : W), (client_startPluginIfNeeded c p w).1 = Ok ();
  stopPluginIfNeeded_returns :
    ∀ c pid (w : W), (client_stopPluginIfNeeded c pid w).1 = Ok ();
  initPlugin_returns : ∀ c pid (w : W), (client_initPlugin c pid w).1 = Ok ();
  deinitPlugin_returns : ∀ c pid (w : W), (client_deinitPlugin c pid w).1 = Ok ();
  loadDevicePlugin_returns :
    ∀ d p (w : W), (device_loadDevicePlugin d p w).1 = Ok ();
  unloadDevicePlugin_returns :
    ∀ d pid (w : W), (device_unloadDevicePlugin d pid w).1 = Ok ();
}.

(** The only report of a drain in which nothing throws: the log entry of the
    [default:] branch. *)
Definition onlyUnexpectedReported (ev : Event) : Prop :=
  match ev with
  | EvConsoleError msg arg =>
      msg = "Unexpected plugin command" ∧ ∃ ty, arg = LogCommand (UNEXPECTED ty)
  | EvShowErrorNotification _ => False
  | _ => True
  end.

(** A computation that returns, all of whose calls satisfy [P]. *)
Definition calm {W A} (P : Event → Prop) (m : M W A) : Prop :=
  ∀ w, (∃ a, res (m w) = Ok a) ∧ Forall P (trace (m w)).

(** Collaborators that do nothing and never fail: the store alone is the
    state, every module resolves to a client plugin made of its details. *)
Definition stillHost : Host State := {|
  getState s := s;
  host_dispatch a s := (Ok (), s);
  host_requirePlugin d s :=
    (Ok {| plugin_id := details_id d; plugin_title := details_title d;
           plugin_version := details_version d; details := d;
           isDevicePlugin := false |}, s);
  host_unloadModule path s := (Ok (), s);
  client_supportsPlugin c pid s := true;
  client_isBackgroundPlugin c pid s := true;
  client_startPluginIfNeeded c p s := (Ok (), s);
  client_stopPluginIfNeeded c pid s := (Ok (), s);
  client_initPlugin c pid s := (Ok (), s);
  client_deinitPlugin c pid s := (Ok (), s);
  device_supportsPlugin d p s := true;
  device_loadDevicePlugin d p s := (Ok (), s);
  device_unloadDevicePlugin d pid s := (Ok (), s);
  deconstructClientId := SpecHost.spec_deconstructClientId;
  getPluginKey := SpecHost.spec_getPluginKey;
  defaultEnabledBackgroundPlugins := [];
|}.

(** The client a call is made on. *)
Definition clientOf (ev : Event) : option Client :=
  match ev with
  | EvStartPluginIfNeeded c _ | EvStopPluginIfNeeded c _
  | EvInitPlugin c _ | EvDeinitPlugin c _ => Some c
  | _ => None
  end.

(** Every call of the trace that is made on a client is made on one of
    [cs]. *)
Definition onClientsOf (cs : list Client) (ev : Event) : Prop :=
  ∀ c, clientOf ev = Some c → c ∈ cs.

(** * Properties *)

(** ** The monad *)

Section MonadFacts.
Context {W : Type}.
Local Open Scope m_scope.

Lemma out_eta {A} (o : Out W A) : MkOut (res o) (world o) (trace o) = o.
Proof. by destruct o. Qed.

Lemma bind_ok {A B} (m : M W A) (f : A → M W B) w a :
  res (m w) = Ok a →
  bind m f w =
    MkOut (res (f a (world (m w)))) (world (f a (world (m w))))
      (trace (m w) ++ trace (f a (world (m w)))).
Proof. intros E. unfold bind. by rewrite E. Qed.

Lemma bind_throw {A B} (m : M W A) (f : A → M W B) w e :
  res (m w) = Throw e →
  bind m f w = MkOut (Throw e) (world (m w)) (trace (m w)).
Proof. intros E. unfold bind. by rewrite E. Qed.

Lemma bind_gets {A B} (g : W → A) (f : A → M W B) w :
  bind (gets g) f w = f (g w) w.
Proof. unfold bind, gets; simpl. apply out_eta. Qed.

Lemma bind_ret {A B} (a : A) (f : A → M W B) w :
  bind (ret a) f w = f a w.
Proof. unfold bind, ret; simpl. apply out_eta. Qed.

Lemma trace_bind {A B} (m : M W A) (f : A → M W B) w :
  trace (bind m f w) =
    trace (m w) ++ match res (m w) with
                   | Ok a => trace (f a (world (m w)))
                   | Throw _ => []
                   end.
Proof. unfold bind. destruct (res (m w)); simpl; [done|]. by rewrite app_nil_r. Qed.

Lemma res_bind {A B} (m : M W A) (f : A → M W B) w :
  res (bind m f w) =
    match res (m w) with
    | Ok a => res (f a (world (m w)))
    | Throw e => Throw e
    end.
Proof. unfold bind. by destruct (res (m w)). Qed.

Lemma world_bind {A B} (m : M W A) (f : A → M W B) w :
  world (bind m f w) =
    match res (m w) with
    | Ok a => world (f a (world (m w)))
    | Throw e => world (m w)
    end.
Proof. unfold bind. by destruct (res (m w)). Qed.

Lemma world_try_catch {A} (m : M W A) (h : Error → M W A) w :
  world (try_catch m h w) =
    match res (m w) with
    | Ok a => world (m w)
    | Throw e => world (h e (world (m w)))
    end.
Proof. unfold try_catch. by destruct (res (m w)). Qed.

Lemma res_call {A} ev (op : W → Res A * W) w : res (call ev op w) = (op w).1.
Proof. done. Qed.
Lemma world_call {A} ev (op : W → Res A * W) w : world (call ev op w) = (op w).2.
Proof. done. Qed.
Lemma trace_call {A} ev (op : W → Res A * W) w : trace (call ev op w) = [ev].
Proof. done. Qed.

Lemma trace_try_catch {A} (m : M W A) (h : Error → M W A) w :
  trace (try_catch m h w) =
    trace (m w) ++ match res (m w) with
                   | Ok _ => []
                   | Throw e => trace (h e (world (m w)))
                   end.
Proof.
  unfold try_catch. destruct (res (m w)); simpl; [|done]. by rewrite app_nil_r.
Qed.

Lemma res_try_catch {A} (m : M W A) (h : Error → M W A) w :
  res (try_catch m h w) =
    match res (m w) with
    | Ok a => Ok a
    | Throw e => res (h e (world (m w)))
    end.
Proof. unfold try_catch. by destruct (res (m w)) eqn:E. Qed.

Lemma emits_ret {A} P (a : A) : emits P (ret (W := W) a).
Proof. intros w. constructor. Qed.

Lemma emits_gets {A} P (g : W → A) : emits P (gets g).
Proof. intros w. constructor. Qed.

Lemma emits_call {A} (P : Event → Prop) ev (op : W → Res A * W) :
  P ev → emits P (call ev op).
Proof. intros H w. by repeat constructor. Qed.

Lemma emits_emit (P : Event → Prop) ev : P ev → emits (W := W) P (emit ev).
Proof. intros H w. by repeat constructor. Qed.

Lemma emits_bind {A B} P (m : M W A) (f : A → M W B) :
  emits P m → (∀ a, emits P (f a)) → emits P (bind m f).
Proof.
  intros Hm Hf w. unfold bind. specialize (Hm w).
  destruct (res (m w)) as [a|e]; simpl; [|done].
  apply Forall_app. split; [done | apply Hf].
Qed.

(** The value read by [gets] is a value of the read. *)
Lemma emits_bind_gets {A B} P (g : W → A) (f : A → M W B) :
  (∀ w, emits P (f (g w))) → emits P (bind (gets g) f).
Proof. intros Hf w. rewrite bind_gets. apply Hf. Qed.

Lemma emits_try_catch {A} P (m : M W A) (h : Error → M W A) :
  emits P m → (∀ e, emits P (h e)) → emits P (try_catch m h).
Proof.
  intros Hm Hh w. unfold try_catch. specialize (Hm w).
  destruct (res (m w)) as [a|e]; simpl; [done|].
  apply Forall_app. split; [done | apply Hh].
Qed.

Lemma emits_forEach {X} P (xs : list X) (f : X → M W ()) :
  (∀ x, emits P (f x)) → emits P (forEach xs f).
Proof.
  intros Hf. induction xs as [|x xs IH]; simpl.
  - apply emits_ret.
  - apply emits_bind; [apply Hf | done].
Qed.

Lemma emits_forEach_in {X} P (xs : list X) (f : X → M W ()) :
  (∀ x, x ∈ xs → emits P (f x)) → emits P (forEach xs f).
Proof.
  intros Hf. induction xs as [|x xs IH]; simpl.
  - apply emits_ret.
  - apply emits_bind; [apply Hf; left | intros _; apply IH].
    intros y Hy. apply Hf. by right.
Qed.

Lemma follows_nil_filter {A} keep (o : Out W A) :
  follows keep [] o → List.filter keep (trace o) = [].
Proof. intros (rest & Heq & _). symmetry in Heq. by apply app_eq_nil in Heq as [? _]. Qed.

Lemma emits_omap_nil {A B} (g : Event → option B) (m : M W A) w :
  emits (λ ev, g ev = None) m → omap g (trace (m w)) = [].
Proof.
  intros H. specialize (H w). induction H as [|ev t Hev _ IH]; [done|].
  simpl. by rewrite Hev.
Qed.

Lemma omap_trace_try_catch {A B} (g : Event → option B) (m : M W A) h w :
  (∀ e, emits (λ ev, g ev = None) (h e)) →
  omap g (trace (try_catch m h w)) = omap g (trace (m w)).
Proof.
  intros Hh. rewrite trace_try_catch, omap_app.
  destruct (res (m w)) as [a|e]; [by rewrite app_nil_r|].
  by rewrite (emits_omap_nil g (h e)), app_nil_r.
Qed.

Lemma omap_trace_bind_r {A B C} (g : Event → option C) (m : M W A)
    (f : A → M W B) w :
  (∀ a, emits (λ ev, g ev = None) (f a)) →
  omap g (trace (bind m f w)) = omap g (trace (m w)).
Proof.
  intros Hf. rewrite trace_bind, omap_app.
  destruct (res (m w)) as [a|e]; [|by rewrite app_nil_r].
  by rewrite (emits_omap_nil g (f a)), app_nil_r.
Qed.

Lemma emits_filter_nil {A} (g : Event → bool) (m : M W A) w :
  emits (λ ev, g ev = false) m → List.filter g (trace (m w)) = [].
Proof.
  intros H. specialize (H w). induction H as [|ev t Hev _ IH]; [done|].
  simpl. by rewrite Hev.
Qed.

Lemma follows_ret {A} keep (a : A) (w : W) : follows keep [] (ret a w).
Proof. exists []. done. Qed.

Lemma follows_call {A} keep ev (op : W → Res A * W) w :
  follows keep (if keep ev then [ev] else []) (call ev op w).
Proof. exists []. simpl. destruct (keep ev); done. Qed.

Lemma follows_call_kept {A} keep ev (op : W → Res A * W) w :
  keep ev = true → follows keep [ev] (call ev op w).
Proof. intros Hk. exists []. simpl. by rewrite Hk. Qed.

Lemma follows_bind {A B} keep e1 e2 (m : M W A) (f : A → M W B) w :
  follows keep e1 (m w) →
  (∀ a, res (m w) = Ok a → follows keep e2 (f a (world (m w)))) →
  follows keep (e1 ++ e2) (bind m f w).
Proof.
  intros (r1 & -> & Hr1) Hf. unfold follows.
  rewrite trace_bind, res_bind. destruct (res (m w)) as [a|e] eqn:E.
  - rewrite (Hr1 a eq_refl), app_nil_r.
    destruct (Hf a eq_refl) as (r2 & -> & Hr2).
    exists r2. split; [|done]. by rewrite List.filter_app, app_assoc.
  - exists (r1 ++ e2). split; [|done]. by rewrite app_nil_r, app_assoc.
Qed.

Lemma follows_bind_gets {A B} keep e (g : W → A) (f : A → M W B) w :
  follows keep e (f (g w) w) → follows keep e (bind (gets g) f w).
Proof. by rewrite bind_gets. Qed.

Lemma follows_forEach {X} keep (e : X → list Event) (xs : list X)
    (f : X → M W ()) :
  (∀ x w, follows keep (e x) (f x w)) →
  ∀ w, follows keep (concat (map e xs)) (forEach xs f w).
Proof.
  intros Hf. induction xs as [|x xs IH]; intros w; simpl.
  - apply follows_ret.
  - apply follows_bind; [apply Hf | intros; apply IH].
Qed.

Lemma follows_of_emits {A} keep (m : M W A) w :
  emits (λ ev, keep ev = false) m → follows keep [] (m w).
Proof.
  intros Hm. exists []. split; [|done].
  by rewrite (emits_filter_nil keep m w Hm).
Qed.

Lemma follows_forEach_one {X} keep (e : X → Event) (xs : list X)
    (f : X → M W ()) :
  (∀ x w, follows keep [e x] (f x w)) →
  ∀ w, follows keep (map e xs) (forEach xs f w).
Proof.
  intros Hf w.
  replace (map e xs) with (concat (map (λ x, [e x]) xs)).
  - by apply follows_forEach.
  - induction xs as [|x xs IH]; simpl; [done|]. by rewrite IH.
Qed.

(** Where a loop has returned, its body has run for every element. *)
Lemma forEach_ok_visits {X} (P : X → Event) (xs : list X) (f : X → M W ()) :
  (∀ x w, res (f x w) = Ok () → P x ∈ trace (f x w)) →
  ∀ w, res (forEach xs f w) = Ok () →
       ∀ x, x ∈ xs → P x ∈ trace (forEach xs f w).
Proof.
  intros Hf. induction xs as [|y xs IH]; intros w Hok x Hx; [by inversion Hx|].
  simpl in *. rewrite res_bind in Hok. rewrite trace_bind.
  destruct (res (f y w)) as [[]|e] eqn:E; [|done].
  apply elem_of_app. apply elem_of_cons in Hx as [->|Hx].
  - left. by apply Hf.
  - right. by apply IH.
Qed.

(** A call of a loop is a call of its body at one of the elements. *)
Lemma forEach_trace_inv {X} (xs : list X) (f : X → M W ()) ev w :
  ev ∈ trace (forEach xs f w) → ∃ x w', x ∈ xs ∧ ev ∈ trace (f x w').
Proof.
  revert w. induction xs as [|y xs IH]; intros w Hev; simpl in *.
  - by inversion Hev.
  - rewrite trace_bind in Hev. apply elem_of_app in Hev as [Hev|Hev].
    + exists y, w. split; [left|done].
    + destruct (res (f y w)); [|by inversion Hev].
      destruct (IH _ Hev) as (x & w' & Hx & Hev').
      exists x, w'. split; [by right|done].
Qed.

End MonadFacts.

(** Walks through a computation, leaving one goal [P ev] per call. *)
Ltac emits_step :=
  lazymatch goal with
  | |- emits _ (ret _) => apply emits_ret
  | |- emits _ (gets _) => apply emits_gets
  | |- emits _ (call _ _) => apply emits_call
  | |- emits _ (emit _) => apply emits_emit
  | |- emits _ (bind (gets _) _) => apply emits_bind_gets; intros
  | |- emits _ (bind _ _) => apply emits_bind; [|intros]
  | |- emits _ (try_catch _ _) => apply emits_try_catch; [|intros]
  | |- emits _ (forEach _ _) => apply emits_forEach; intros
  | |- emits _ (match _ with _ => _ end) => case_match
  end.

Ltac unfold_manager :=
  unfold handleCommand, loadPlugin, uninstallPlugin, updatePlugin,
    switchPlugin, switchClientPlugin, switchDevicePlugin, updateClientPlugin,
    updateDevicePlugin, enableForSelectedApp, startPlugin, stopPlugin,
    unloadPluginModule, getSelectedAppName, guardedCommand, dispatch, requirePlugin,
    unloadModule, startPluginIfNeeded, stopPluginIfNeeded, initPlugin,
    deinitPlugin, loadDevicePlugin, unloadDevicePlugin, console_error,
    showErrorNotification.

Ltac emits_auto := unfold_manager; repeat emits_step; try done.

(** ** The command queue (lines 96-126) *)

Section Queue.
Context {W : Type} `{!Host W}.

Lemma guardedCommand_ok command w : res (guardedCommand command w) = Ok ().
Proof.
  unfold guardedCommand, try_catch.
  destruct (res (handleCommand command w)) as [[]|e] eqn:E; simpl; done.
Qed.

Lemma handleCommand_no_processed command :
  emits (λ ev, isProcessedDispatch ev = false) (handleCommand (W := W) command).
Proof. destruct command; emits_auto. Qed.

Lemma updatePlugin_no_require payload :
  emits (λ ev, requireOf ev = None) (updatePlugin (W := W) payload).
Proof. emits_auto. Qed.

Lemma handleCommand_requires command w :
  omap requireOf (trace (handleCommand command w)) = omap loadOf [command].
Proof.
  destruct command as [payload|payload|payload|payload|ty]; simpl.
  - unfold loadPlugin.
    rewrite omap_trace_try_catch by (intros; emits_auto).
    by rewrite omap_trace_bind_r by (intros; apply updatePlugin_no_require).
  - apply (emits_omap_nil requireOf (uninstallPlugin payload)). emits_auto.
  - apply (emits_omap_nil requireOf (updatePlugin payload)). emits_auto.
  - apply (emits_omap_nil requireOf (switchPlugin payload)). emits_auto.
  - done.
Qed.

Lemma guardedCommand_world command w :
  world (guardedCommand command w) = world (handleCommand command w).
Proof.
  unfold guardedCommand, try_catch.
  by destruct (res (handleCommand command w)).
Qed.

Lemma guardedCommand_trace command w :
  trace (guardedCommand command w) =
    trace (handleCommand command w)
    ++ match res (handleCommand command w) with
       | Ok _ => []
       | Throw _ =>
           [EvConsoleError "Failed to process command" (LogCommand command)]
       end.
Proof. unfold guardedCommand. by rewrite trace_try_catch. Qed.

Lemma drain_loop queue w :
  ∃ w1 t1,
    Drained queue w w1 t1
    ∧ forEach queue guardedCommand w = MkOut (Ok ()) w1 t1
    ∧ List.filter isProcessedDispatch t1 = []
    ∧ omap requireOf t1 = omap loadOf queue.
Proof.
  revert w. induction queue as [|c q IH]; intros w.
  - exists w, []. repeat split. constructor.
  - simpl. rewrite (bind_ok _ _ w ()); [|apply guardedCommand_ok].
    rewrite guardedCommand_world, guardedCommand_trace.
    pose proof (emits_filter_nil isProcessedDispatch (handleCommand c) w
                  (handleCommand_no_processed c)) as Hnp.
    pose proof (handleCommand_requires c w) as Hrq.
    destruct (IH (world (handleCommand c w))) as (w1 & t1 & HD & Hrun & Hf & Hr).
    rewrite Hrun. cbn [res world trace].
    destruct (res (handleCommand c w)) as [[]|e] eqn:E.
    + exists w1, (trace (handleCommand c w) ++ t1).
      rewrite app_nil_r. repeat split.
      * by apply Drained_ok.
      * by rewrite List.filter_app, Hnp, Hf.
      * rewrite omap_app, Hrq, Hr. simpl. by destruct (loadOf c).
    + exists w1, (trace (handleCommand c w)
        ++ EvConsoleError "Failed to process command" (LogCommand c) :: t1).
      repeat split.
      * by eapply Drained_caught.
      * by rewrite <- app_assoc.
      * rewrite List.filter_app, Hnp. simpl. done.
      * rewrite omap_app, Hrq. unfold omap in Hr |- *. simpl. rewrite Hr.
        by destruct (loadOf c).
Qed.

(** C1.  One drain of a snapshot handles the commands one by one from the
    head ([Drained]): a handler that throws is caught, logged, and the
    commands after it are handled all the same.  After the loop
    [pluginCommandsProcessed] is dispatched with the length of the snapshot,
    and that is the only such dispatch of the drain, however many handlers
    failed.  The order shows in the trace: the modules required are the
    modules of the LOAD_PLUGIN commands, in queue order. *)
Theorem processPluginCommandsQueue_drains_snapshot
    (queue : list PluginCommand) (w : W) :
  let o := processPluginCommandsQueue queue w in
  let processed := pluginCommandsProcessed (length queue) in
  ∃ w1 t1,
    Drained queue w w1 t1
    ∧ trace o = t1 ++ [EvDispatch processed]
    ∧ (res o, world o) = host_dispatch processed w1
    ∧ List.filter isProcessedDispatch (trace o) = [EvDispatch processed]
    ∧ omap requireOf (trace o) = omap loadOf queue.
Proof.
  intros o processed.
  destruct (drain_loop queue w) as (w1 & t1 & HD & Hrun & Hf & Hr).
  exists w1, t1. subst o. unfold processPluginCommandsQueue.
  rewrite (bind_ok _ _ w ()) by (by rewrite Hrun).
  rewrite Hrun. cbn [res world trace]. unfold dispatch, call.
  cbn [res world trace]. fold processed.
  repeat split; [done|by destruct (host_dispatch processed w1)|..].
  - by rewrite List.filter_app, Hf.
  - by rewrite omap_app, Hr, app_nil_r.
Qed.

End Queue.

(** ** The start and stop primitives (lines 304-335) *)

Section Primitives.
Context {W : Type} `{!Host W}.

Lemma includes_elem_of (xs : list string) (x : string) :
  includes xs x = true ↔ x ∈ xs.
Proof.
  unfold includes. rewrite existsb_exists. split.
  - intros (y & Hy & Heq). apply String.eqb_eq in Heq. subst.
    by apply list_elem_of_In.
  - intros Hx. exists x. split; [by apply list_elem_of_In | apply String.eqb_refl].
Qed.

(** The condition of the code, in the words of the specification. *)
Lemma backgroundSignalDue_spec force client pluginId (w : W) :
  backgroundSignalDue force client pluginId w = true ↔
    client_isBackgroundPlugin client pluginId w = true
    ∧ (force = true ∨ pluginId ∉ defaultEnabledBackgroundPlugins).
Proof.
  unfold backgroundSignalDue.
  rewrite andb_true_iff, orb_true_iff, negb_true_iff.
  rewrite <- includes_elem_of, not_true_iff_false. tauto.
Qed.

Lemma startPlugin_trace client plugin force (w : W) :
  trace (startPlugin client plugin force w) =
    EvStartPluginIfNeeded client plugin ::
      match (client_startPluginIfNeeded client plugin w).1 with
      | Ok _ =>
          if backgroundSignalDue force client (plugin_id plugin)
               (client_startPluginIfNeeded client plugin w).2
          then [EvInitPlugin client (plugin_id plugin)]
          else []
      | Throw _ => []
      end.
Proof.
  unfold startPlugin. rewrite trace_bind.
  unfold startPluginIfNeeded at 1 2, call; cbn [res world trace].
  destruct (client_startPluginIfNeeded client plugin w).1; [|done].
  rewrite bind_gets. by destruct (backgroundSignalDue _ _ _ _).
Qed.

Lemma stopPlugin_trace client pluginId force (w : W) :
  trace (stopPlugin client pluginId force w) =
    if backgroundSignalDue force client pluginId w then
      EvDeinitPlugin client pluginId ::
        match (client_deinitPlugin client pluginId w).1 with
        | Ok _ => [EvStopPluginIfNeeded client pluginId]
        | Throw _ => []
        end
    else [EvStopPluginIfNeeded client pluginId].
Proof.
  unfold stopPlugin. rewrite bind_gets, trace_bind.
  destruct (backgroundSignalDue force client pluginId w).
  - unfold deinitPlugin, call; cbn [res world trace].
    destruct (client_deinitPlugin client pluginId w).1; [|done].
    rewrite trace_bind. unfold stopPluginIfNeeded, call; cbn [res world trace].
    by destruct (client_stopPluginIfNeeded _ _ _).1.
  - cbn [ret res world trace]. rewrite trace_bind.
    unfold stopPluginIfNeeded, call; cbn [res world trace].
    by destruct (client_stopPluginIfNeeded _ _ _).1.
Qed.

(** C8.  [startPlugin] sends the init signal, once the "start if needed"
    call has returned, exactly when the plugin is a background plugin and
    the force flag is set or the plugin is not in the default-enabled
    background set; [stopPlugin] sends the deinit signal under the same
    condition, and sends it before the "stop if needed" call. *)
Theorem background_signal_iff_due
    (client : Client) (plugin : PluginDefinition) (pluginId : string)
    (force : bool) (w : W) :
  let started := client_startPluginIfNeeded client plugin w in
  let due (pid : string) (w' : W) :=
    client_isBackgroundPlugin client pid w' = true
    ∧ (force = true ∨ pid ∉ defaultEnabledBackgroundPlugins) in
  (started.1 = Ok () →
     (EvInitPlugin client (plugin_id plugin)
        ∈ trace (startPlugin client plugin force w)
      ↔ due (plugin_id plugin) started.2))
  ∧ (EvDeinitPlugin client pluginId ∈ trace (stopPlugin client pluginId force w)
     ↔ due pluginId w)
  ∧ (∀ i j,
       trace (stopPlugin client pluginId force w) !! i
         = Some (EvDeinitPlugin client pluginId) →
       trace (stopPlugin client pluginId force w) !! j
         = Some (EvStopPluginIfNeeded client pluginId) →
       i < j).
Proof.
  intros started due. subst due. cbn beta. split; [|split].
  - intros Hs. rewrite startPlugin_trace. fold started. rewrite Hs.
    rewrite <- backgroundSignalDue_spec.
    destruct (backgroundSignalDue _ _ _ _); set_solver.
  - rewrite stopPlugin_trace, <- backgroundSignalDue_spec.
    destruct (backgroundSignalDue _ _ _ _); set_solver.
  - rewrite stopPlugin_trace.
    destruct (backgroundSignalDue _ _ _ _);
      [destruct (client_deinitPlugin client pluginId w).1|];
      intros [|[|i]] [|[|j]] Hi Hj; simplify_eq/=; lia.
Qed.

End Primitives.

(** ** The load handler (lines 128-144) *)

Section Load.
Context {W : Type} `{!Host W}.

Lemma load_catch_trace payload e (w : W) :
  trace ((console_error (loadFailedLog (load_plugin payload)) (LogError e) ;;
          if notifyIfFailed payload then
            showErrorNotification (loadFailedNotification (load_plugin payload))
          else ret ())%M w)
  = loadFailureReport payload e.
Proof. unfold loadFailureReport. by destruct (notifyIfFailed payload). Qed.

Lemma load_catch_res payload e (w : W) :
  res ((console_error (loadFailedLog (load_plugin payload)) (LogError e) ;;
        if notifyIfFailed payload then
          showErrorNotification (loadFailedNotification (load_plugin payload))
        else ret ())%M w)
  = Ok ().
Proof. by destruct (notifyIfFailed payload). Qed.

(** C9.  [loadPlugin] returns normally for every payload and host.  Its
    trace is the call to [requirePlugin], then, if the module resolved, the
    whole of [updatePlugin] on the resolved plugin; whenever either of the
    two throws, the exception is caught: it is logged and, if
    [notifyIfFailed] is set, the notification is shown
    ([loadFailureReport]). *)
Theorem loadPlugin_catches_resolution_and_update
    (payload : LoadPluginActionPayload) (w : W) :
  let required := host_requirePlugin (load_plugin payload) w in
  res (loadPlugin payload w) = Ok ()
  ∧ trace (loadPlugin payload w) =
      EvRequirePlugin (load_plugin payload) ::
        match required.1 with
        | Ok plugin =>
            let update :=
              updatePlugin
                {| update_plugin := plugin; enablePlugin := enable payload |}
                required.2 in
            trace update ++ match res update with
                            | Ok _ => []
                            | Throw e => loadFailureReport payload e
                            end
        | Throw e => loadFailureReport payload e
        end.
Proof.
  intros required. unfold loadPlugin.
  rewrite res_try_catch, trace_try_catch, res_bind, world_bind, trace_bind.
  unfold requirePlugin. rewrite res_call, world_call, trace_call.
  fold required.
  destruct required.1 as [plugin|e]; cbn [res world trace].
  - destruct (res (updatePlugin _ _)) as [[]|e] eqn:E.
    + split; [done|]. by rewrite !app_nil_r.
    + rewrite load_catch_res, load_catch_trace. split; [done|].
      by rewrite <- app_assoc.
  - by rewrite load_catch_res, load_catch_trace.
Qed.

End Load.

(** ** Updating a client plugin (lines 244-276) *)

Section UpdateClient.
Context {W : Type} `{!Host W}.
Local Open Scope m_scope.

Lemma stopPlugin_ok_called client pluginId force (w : W) b :
  res (stopPlugin client pluginId force w) = Ok b →
  EvStopPluginIfNeeded client pluginId ∈ trace (stopPlugin client pluginId force w).
Proof.
  rewrite stopPlugin_trace. unfold stopPlugin.
  rewrite bind_gets, res_bind.
  destruct (backgroundSignalDue force client pluginId w).
  - unfold deinitPlugin. rewrite res_call.
    destruct (client_deinitPlugin client pluginId w).1; [|done]. set_solver.
  - set_solver.
Qed.

Lemma follows_stopPlugin client pluginId force (w : W) :
  follows isIfNeededCall [EvStopPluginIfNeeded client pluginId]
    ((stopPlugin client pluginId force ;; ret ()) w).
Proof.
  unfold follows. rewrite trace_bind, res_bind, stopPlugin_trace.
  destruct (res (stopPlugin client pluginId force w)) as [b|e] eqn:E.
  - exists []. split; [|done]. cbn [ret trace]. rewrite !app_nil_r.
    pose proof (stopPlugin_ok_called _ _ _ _ _ E) as Hin.
    rewrite stopPlugin_trace in Hin.
    destruct (backgroundSignalDue force client pluginId w); [|done].
    destruct (client_deinitPlugin client pluginId w).1; [done|].
    set_solver.
  - rewrite app_nil_r.
    destruct (backgroundSignalDue force client pluginId w);
      [destruct (client_deinitPlugin client pluginId w).1|]; simpl;
      eexists; (split; [reflexivity|done]).
Qed.

Lemma startPlugin_res_ok client plugin force (w : W) :
  res (startPlugin client plugin force w) = Ok () →
  (client_startPluginIfNeeded client plugin w).1 = Ok ().
Proof.
  unfold startPlugin. rewrite res_bind. unfold startPluginIfNeeded.
  rewrite res_call. by destruct (client_startPluginIfNeeded _ _ _).1 as [[]|].
Qed.

Lemma follows_startPlugin client plugin force (w : W) :
  follows isIfNeededCall [EvStartPluginIfNeeded client plugin]
    (startPlugin client plugin force w).
Proof.
  exists []. rewrite startPlugin_trace. split; [|done]. simpl.
  destruct (client_startPluginIfNeeded client plugin w).1; [|done].
  by destruct (backgroundSignalDue _ _ _ _).
Qed.

Lemma startPlugin_trace_inv client plugin force (w : W) c p :
  EvStartPluginIfNeeded c p ∈ trace (startPlugin client plugin force w) →
  c = client ∧ p = plugin.
Proof.
  rewrite startPlugin_trace.
  destruct (client_startPluginIfNeeded client plugin w).1;
    [destruct (backgroundSignalDue _ _ _ _)|]; set_solver.
Qed.

(** The part of [updateClientPlugin] that follows the stop pass. *)
Lemma update_tail_no_stop plugin cs (prev : option PluginDefinition) :
  emits (W := W) (λ ev, isStopCall ev = false)
    (forEach cs (λ client, startPlugin client plugin true) ;;
     dispatch (pluginLoaded plugin) ;;
     match prev with
     | Some previousVersion => unloadPluginModule (details previousVersion)
     | None => ret ()
     end).
Proof. emits_auto. Qed.

Lemma update_tail_starts plugin cs (prev : option PluginDefinition) (w : W) c p :
  EvStartPluginIfNeeded c p ∈ trace
    ((forEach cs (λ client, startPlugin client plugin true) ;;
      dispatch (pluginLoaded plugin) ;;
      match prev with
      | Some previousVersion => unloadPluginModule (details previousVersion)
      | None => ret ()
      end) w) →
  c ∈ cs ∧ p = plugin.
Proof.
  rewrite trace_bind. intros [Hin|Hin]%elem_of_app.
  - apply forEach_trace_inv in Hin as (x & w' & Hx & Hin).
    apply startPlugin_trace_inv in Hin as [-> ->]. done.
  - exfalso. destruct (res (forEach _ _ w)); [|by inversion Hin].
    assert (Hno : emits (W := W) (λ ev, isIfNeededCall ev = false)
              (dispatch (pluginLoaded plugin) ;;
               match prev with
               | Some previousVersion =>
                   unloadPluginModule (details previousVersion)
               | None => ret ()
               end)) by emits_auto.
    specialize (Hno (world (forEach cs
      (λ client, startPlugin client plugin true) w))).
    rewrite Forall_forall in Hno. by specialize (Hno _ Hin).
Qed.

Lemma update_head_no_start plugin enable :
  emits (W := W) (λ ev, isStartCall ev = false)
    (enableForSelectedApp plugin enable).
Proof. emits_auto. Qed.

Lemma update_stops_no_start plugin cs :
  emits (W := W) (λ ev, isStartCall ev = false)
    (forEach cs (λ client, stopPlugin client (plugin_id plugin) false ;; ret ())).
Proof. emits_auto. Qed.

Lemma updateClientPlugin_two_passes plugin enable (w : W) :
  let cs :=
    clientsWithEnabledPlugin plugin (getAllClients (connections (getState w)))
      (world (enableForSelectedApp plugin enable w)) in
  follows isIfNeededCall
    (map (λ c, EvStopPluginIfNeeded c (plugin_id plugin)) cs
     ++ map (λ c, EvStartPluginIfNeeded c plugin) cs)
    (updateClientPlugin plugin enable w).
Proof.
  intros cs. unfold updateClientPlugin. rewrite bind_gets.
  change (map (λ c, EvStopPluginIfNeeded c (plugin_id plugin)) cs
          ++ map (λ c, EvStartPluginIfNeeded c plugin) cs)
    with ([] ++ (map (λ c, EvStopPluginIfNeeded c (plugin_id plugin)) cs
                 ++ map (λ c, EvStartPluginIfNeeded c plugin) cs)).
  apply follows_bind.
  { apply follows_of_emits. emits_auto. }
  intros [] Hok. rewrite !bind_gets. fold cs.
  apply follows_bind.
  { apply follows_forEach_one. intros; apply follows_stopPlugin. }
  intros [] Hstops.
  rewrite <- (app_nil_r (map (λ c, EvStartPluginIfNeeded c plugin) cs)).
  apply follows_bind.
  { apply follows_forEach_one. intros; apply follows_startPlugin. }
  intros [] Hstarts. apply follows_of_emits. emits_auto.
Qed.

(** C3.  The trace of [updateClientPlugin] falls in two parts.  The first
    holds no start call ("start if needed", init), the second no stop call
    ("stop if needed", deinit): every stop is over before any start begins.
    A client is started only if it is one of the clients with the plugin
    enabled, and then its stop is in the first part.  The two passes run
    over that same list of clients, in order: the stop and start calls are a
    prefix of all stops followed by all starts, and the whole of it when the
    update returns. *)
Theorem updateClientPlugin_stops_before_starts
    (plugin : PluginDefinition) (enable : bool) (w : W) :
  let o := updateClientPlugin plugin enable w in
  let cs :=
    clientsWithEnabledPlugin plugin (getAllClients (connections (getState w)))
      (world (enableForSelectedApp plugin enable w)) in
  (∃ t1 t2,
     trace o = t1 ++ t2
     ∧ Forall (λ ev, isStartCall ev = false) t1
     ∧ Forall (λ ev, isStopCall ev = false) t2
     ∧ ∀ c p, EvStartPluginIfNeeded c p ∈ t2 →
         p = plugin ∧ c ∈ cs ∧ EvStopPluginIfNeeded c (plugin_id plugin) ∈ t1)
  ∧ follows isIfNeededCall
      (map (λ c, EvStopPluginIfNeeded c (plugin_id plugin)) cs
       ++ map (λ c, EvStartPluginIfNeeded c plugin) cs)
      o.
Proof.
  intros o cs. subst o. unfold updateClientPlugin. rewrite bind_gets.
  set (clients := getAllClients (connections (getState w))) in *.
  set (head := enableForSelectedApp plugin enable) in *.
  split.
  - rewrite trace_bind.
    pose proof (update_head_no_start plugin enable w) as Hhead. fold head in Hhead.
    destruct (res (head w)) as [[]|e] eqn:Ehead.
    2: { exists (trace (head w)), []. rewrite !app_nil_r.
         split; [done|]. split; [done|]. split; [constructor|].
         intros c p Hin; by inversion Hin. }
    rewrite !bind_gets. fold cs.
    set (prev := clientPlugins (plugins (getState (world (head w))))
                   !! plugin_id plugin).
    rewrite trace_bind.
    set (stops := forEach cs
           (λ client, stopPlugin client (plugin_id plugin) false ;; ret ())).
    pose proof (update_stops_no_start plugin cs (world (head w))) as Hstops.
    fold stops in Hstops.
    destruct (res (stops (world (head w)))) as [[]|e] eqn:Estops.
    2: { exists (trace (head w) ++ trace (stops (world (head w)))), [].
         rewrite !app_nil_r.
         split; [done|]. split; [by apply Forall_app|]. split; [constructor|].
         intros c p Hin; by inversion Hin. }
    eexists (trace (head w) ++ trace (stops (world (head w)))), _.
    split; [by rewrite app_assoc|].
    split; [by apply Forall_app|].
    split; [apply update_tail_no_stop|].
    intros c p Hin. apply update_tail_starts in Hin as [Hc ->].
    repeat split; [done|]. apply elem_of_app. right.
    apply (forEach_ok_visits (λ c, EvStopPluginIfNeeded c (plugin_id plugin)));
      [|done|done].
    intros x w' Hok. rewrite trace_bind. apply elem_of_app. left.
    rewrite res_bind in Hok.
    destruct (res (stopPlugin x (plugin_id plugin) false w')) eqn:E; [|done].
    by eapply stopPlugin_ok_called.
  - apply updateClientPlugin_two_passes.
Qed.

(** C10.  With the enable flag set and an app selected, the first call of
    [updateClientPlugin] is the dispatch of [setPluginEnabled], and the
    clients with the plugin enabled are computed in the state the dispatch
    left.  So, the reducer having marked the plugin enabled for the app, a
    connected client of the selected app that supports the plugin is one of
    them, whatever the registry said at entry, and when the update returns it
    has been stopped and started. *)
Theorem updateClientPlugin_enables_before_filter
    (plugin : PluginDefinition) (w w1 : W) (a : string) (c : Client) :
  let pid := plugin_id plugin in
  let o := updateClientPlugin plugin true w in
  let cs :=
    clientsWithEnabledPlugin plugin (getAllClients (connections (getState w))) w1 in
  truthy_app (selectedAppName w) = Some a →
  host_dispatch (setPluginEnabled pid a) w = (Ok (), w1) →
  includes_opt (enabledPlugins (connections (getState w1)) !! a) pid = true →
  c ∈ getAllClients (connections (getState w)) →
  app (query c) = a →
  client_supportsPlugin c pid w1 = true →
  c ∈ cs
  ∧ (∃ t, trace o = EvDispatch (setPluginEnabled pid a) :: t)
  ∧ follows isIfNeededCall
      (map (λ c, EvStopPluginIfNeeded c pid) cs
       ++ map (λ c, EvStartPluginIfNeeded c plugin) cs)
      o
  ∧ (res o = Ok () →
     EvStopPluginIfNeeded c pid ∈ trace o
     ∧ EvStartPluginIfNeeded c plugin ∈ trace o).
Proof.
  intros pid o cs Hsel Hdisp Hen Hc Happ Hsup.
  assert (Hhead : enableForSelectedApp plugin true w
                  = MkOut (Ok ()) w1 [EvDispatch (setPluginEnabled pid a)]).
  { unfold enableForSelectedApp, getSelectedAppName. rewrite bind_gets, Hsel.
    unfold dispatch, call. fold pid. by rewrite Hdisp. }
  assert (Hcs : c ∈ cs).
  { subst cs. unfold clientsWithEnabledPlugin.
    apply list_elem_of_In, filter_In. split; [by apply list_elem_of_In|].
    fold pid. by rewrite Hsup, Happ, Hen. }
  pose proof (updateClientPlugin_two_passes plugin true w) as Hf.
  cbv zeta in Hf. rewrite Hhead in Hf. cbn [world] in Hf. fold cs pid o in Hf.
  split; [done|]. split; [|split; [done|]].
  - subst o. unfold updateClientPlugin. rewrite bind_gets, trace_bind, Hhead.
    cbn [trace res]. eauto.
  - intros Hok. destruct Hf as (rest & Heq & Hrest).
    rewrite (Hrest () Hok), app_nil_r in Heq.
    assert (Hsub : ∀ ev, ev ∈ List.filter isIfNeededCall (trace o) → ev ∈ trace o).
    { intros ev. rewrite !list_elem_of_In, filter_In. tauto. }
    split; apply Hsub; rewrite <- Heq; apply elem_of_app; [left|right];
      apply list_elem_of_fmap; by exists c.
Qed.

End UpdateClient.

(** ** Switching a client plugin (lines 196-224) *)

Section SwitchClient.
Context {W : Type} `{!Host W}.
Local Open Scope m_scope.

Lemma stopPlugin_res client pluginId force (w : W) :
  res (stopPlugin client pluginId force w) =
    match (if backgroundSignalDue force client pluginId w
           then (client_deinitPlugin client pluginId w).1 else Ok ()) with
    | Ok _ =>
        match (client_stopPluginIfNeeded client pluginId
                 (if backgroundSignalDue force client pluginId w
                  then (client_deinitPlugin client pluginId w).2 else w)).1 with
        | Ok _ => Ok true
        | Throw e => Throw e
        end
    | Throw e => Throw e
    end.
Proof.
  unfold stopPlugin. rewrite bind_gets, res_bind.
  destruct (backgroundSignalDue force client pluginId w).
  - unfold deinitPlugin at 1 2. rewrite res_call, world_call.
    destruct (client_deinitPlugin client pluginId w).1; [|done].
    rewrite res_bind. unfold stopPluginIfNeeded. rewrite res_call.
    by destruct (client_stopPluginIfNeeded _ _ _).1.
  - cbn [ret res world]. rewrite res_bind. unfold stopPluginIfNeeded.
    rewrite res_call. by destruct (client_stopPluginIfNeeded _ _ _).1.
Qed.

Lemma follows_stopPlugin_signal client pluginId force (w : W) :
  follows notBackgroundSignal [EvStopPluginIfNeeded client pluginId]
    (stopPlugin client pluginId force w).
Proof.
  unfold follows. rewrite stopPlugin_trace, stopPlugin_res.
  destruct (backgroundSignalDue force client pluginId w);
    [destruct (client_deinitPlugin client pluginId w).1|]; simpl;
    eexists; (split; [reflexivity|done]).
Qed.

Lemma follows_startPlugin_signal client plugin force (w : W) :
  follows notBackgroundSignal [EvStartPluginIfNeeded client plugin]
    (startPlugin client plugin force w).
Proof.
  exists []. rewrite startPlugin_trace. split; [|done]. simpl.
  destruct (client_startPluginIfNeeded client plugin w).1; [|done].
  by destruct (backgroundSignalDue _ _ _ _).
Qed.

(** C4.  [switchClientPlugin] is a toggle on what the registry says when it
    is called.  Without a resolved app it returns at once: no call, the
    host untouched.  Otherwise, the init and deinit signals of background
    plugins aside, an enabled plugin is stopped on each client of the app,
    each stop followed by the [clearMessageQueue] of that client's plugin
    key, and [setPluginDisabled] is dispatched last; a plugin that is not
    enabled is started on each client of the app and [setPluginEnabled] is
    dispatched last.  The clients of the app are the connected clients
    whose query names it. *)
Theorem switchClientPlugin_toggles
    (plugin : PluginDefinition) (selectedApp : option string) (w : W) :
  let o := switchClientPlugin plugin selectedApp w in
  let pid := plugin_id plugin in
  match resolvedApp selectedApp w with
  | None => o = MkOut (Ok ()) w []
  | Some a =>
      let cs := getClientsByAppName (clients (connections (getState w))) a in
      (∀ c, c ∈ cs ↔ c ∈ clients (connections (getState w)) ∧ app (query c) = a)
      ∧ if includes_opt (enabledPlugins (connections (getState w)) !! a) pid
        then
          follows notBackgroundSignal
            (concat (map (λ c,
               [EvStopPluginIfNeeded c pid;
                EvDispatch (clearMessageQueue
                  (getPluginKey (client_id c) (device_id (query c)) pid))]) cs)
             ++ [EvDispatch (setPluginDisabled pid a)])
            o
        else
          follows notBackgroundSignal
            (map (λ c, EvStartPluginIfNeeded c plugin) cs
             ++ [EvDispatch (setPluginEnabled pid a)])
            o
  end.
Proof.
  intros o pid. subst o. unfold switchClientPlugin, resolvedApp.
  assert (Hsel :
    ∀ k : option string → M W (),
      (sel <- match selectedApp with
              | Some a => ret (Some a)
              | None => getSelectedAppName
              end ;; k sel) w
      = k match selectedApp with
          | Some a => Some a
          | None => selectedAppName w
          end w).
  { intros k. destruct selectedApp; [apply bind_ret|].
    unfold getSelectedAppName. apply bind_gets. }
  rewrite Hsel. clear Hsel.
  destruct (truthy_app _) as [a|]; [|done].
  rewrite bind_gets. split.
  { intros c. unfold getClientsByAppName.
    rewrite list_elem_of_In, filter_In, <- list_elem_of_In, String.eqb_eq. done. }
  fold pid. destruct (includes_opt _ pid).
  - apply follows_bind; [|intros; by apply follows_call_kept].
    apply follows_forEach. intros c w'.
    apply (follows_bind _ [_] [_]); [apply follows_stopPlugin_signal|].
    intros; by apply follows_call_kept.
  - apply follows_bind; [|intros; by apply follows_call_kept].
    apply follows_forEach_one. intros; apply follows_startPlugin_signal.
Qed.

End SwitchClient.

(** ** Updating a device plugin (lines 278-302) *)

Section UpdateDevice.
Context {W : Type} `{!Host W}.
Local Open Scope m_scope.

Lemma filter_everyCall (t : list Event) : List.filter everyCall t = t.
Proof. induction t as [|ev t IH]; simpl; [done|]. by rewrite IH. Qed.

Lemma follows_unloadPluginModule (prev : option PluginDefinition) (w : W) :
  follows everyCall (unloadOfPrevious prev)
    (match prev with
     | Some previousVersion => unloadPluginModule (details previousVersion)
     | None => ret ()
     end w).
Proof.
  destruct prev as [pv|]; simpl; [|apply follows_ret].
  unfold unloadPluginModule. destruct (isBundled (details pv)).
  - apply follows_ret.
  - by apply follows_call_kept.
Qed.

(** C6.  [updateDevicePlugin] makes these calls and no other, in this order:
    [setDevicePluginEnabled] if the enable flag is set; [unloadDevicePlugin]
    on every device that supports the plugin; [unloadModule] for the previous
    version, if one is registered and it is not bundled; [pluginLoaded], which
    registers the new definition; [loadDevicePlugin] on every one of the same
    devices.  An exception ends the sequence where it is raised.  So where a
    device is loaded at all, every unload and the swap of the version lie
    before it. *)
Theorem updateDevicePlugin_unload_swap_load
    (plugin : PluginDefinition) (enable : bool) (w : W) :
  let o := updateDevicePlugin plugin enable w in
  let pid := plugin_id plugin in
  let w1 :=
    world ((if enable then dispatch (setDevicePluginEnabled pid) else ret ()) w) in
  let ds :=
    List.filter (λ d, device_supportsPlugin d (OfDefinition plugin) w1)
      (devices (connections (getState w1))) in
  let w2 := world (forEach ds (λ d, unloadDevicePlugin d pid) w1) in
  let unloadAndSwap :=
    (if enable then [EvDispatch (setDevicePluginEnabled pid)] else [])
    ++ map (λ d, EvUnloadDevicePlugin d pid) ds
    ++ unloadOfPrevious (devicePlugins (plugins (getState w2)) !! pid)
    ++ [EvDispatch (pluginLoaded plugin)] in
  let loads := map (λ d, EvLoadDevicePlugin d plugin) ds in
  follows everyCall (unloadAndSwap ++ loads) o
  ∧ (∀ d p, EvLoadDevicePlugin d p ∈ trace o →
       ∃ t2, trace o = unloadAndSwap ++ t2 ∧ t2 `prefix_of` loads).
Proof.
  intros o pid w1 ds w2 unloadAndSwap loads.
  assert (Hf : follows everyCall (unloadAndSwap ++ loads) o).
  { subst o unloadAndSwap loads. unfold updateDevicePlugin. fold pid.
    rewrite <- !app_assoc.
    apply follows_bind.
    { destruct enable; [by apply follows_call_kept | apply follows_ret]. }
    intros [] _. fold w1. rewrite !bind_gets. fold ds.
    apply follows_bind.
    { apply follows_forEach_one. intros; by apply follows_call_kept. }
    intros [] _. fold w2. rewrite bind_gets.
    apply follows_bind; [apply follows_unloadPluginModule|].
    intros [] _. apply follows_bind; [by apply follows_call_kept|].
    intros [] _. apply follows_forEach_one. intros; by apply follows_call_kept. }
  split; [done|].
  intros d p Hin. destruct Hf as (rest & Heq & _).
  rewrite filter_everyCall in Heq. symmetry in Heq.
  apply app_eq_inv in Heq as [(k & Ht & Hl)|(k & Hu & Hr)].
  - exists k. split; [done|]. by exists rest.
  - exfalso. clear -Hin Hu. subst unloadAndSwap.
    assert (Hno : Forall (λ ev, isLoadDeviceCall ev = false) (trace o ++ k)).
    { rewrite <- Hu. rewrite !Forall_app. repeat split.
      - destruct enable; by repeat constructor.
      - apply Forall_forall. intros ev (x & -> & _)%list_elem_of_fmap. done.
      - unfold unloadOfPrevious. repeat case_match; by repeat constructor.
      - by repeat constructor. }
    apply Forall_app in Hno as [Hno _]. rewrite Forall_forall in Hno.
    by specialize (Hno _ Hin).
Qed.

End UpdateDevice.

(** ** Unloading modules (lines 337-343, and the callers) *)

Section UnloadModule.
Context {W : Type} `{!Host W}.
Local Open Scope m_scope.

Lemma follows_unloads_previous (prev : option PluginDefinition) (w : W) :
  follows isUnloadModule (unloadOfPrevious prev)
    (match prev with
     | Some previousVersion => unloadPluginModule (details previousVersion)
     | None => ret ()
     end w).
Proof.
  destruct prev as [pv|]; simpl; [|apply follows_ret].
  unfold unloadPluginModule. destruct (isBundled (details pv)).
  - apply follows_ret.
  - by apply follows_call_kept.
Qed.

Lemma updateClientPlugin_unloads plugin enable (w : W) :
  follows isUnloadModule
    (unloadOfPrevious (previousClientVersion plugin enable w))
    (updateClientPlugin plugin enable w).
Proof.
  unfold updateClientPlugin, previousClientVersion. rewrite bind_gets.
  rewrite <- (app_nil_l (unloadOfPrevious _)).
  apply follows_bind; [apply follows_of_emits; emits_auto|].
  intros [] _. rewrite !bind_gets.
  rewrite <- (app_nil_l (unloadOfPrevious _)).
  apply follows_bind; [apply follows_of_emits; emits_auto|].
  intros [] _. rewrite <- (app_nil_l (unloadOfPrevious _)).
  apply follows_bind; [apply follows_of_emits; emits_auto|].
  intros [] _. rewrite <- (app_nil_l (unloadOfPrevious _)).
  apply follows_bind; [apply follows_of_emits; emits_auto|].
  intros [] _. apply follows_unloads_previous.
Qed.

Lemma updateDevicePlugin_unloads plugin enable (w : W) :
  follows isUnloadModule
    (unloadOfPrevious (previousDeviceVersion plugin enable w))
    (updateDevicePlugin plugin enable w).
Proof.
  unfold updateDevicePlugin, previousDeviceVersion.
  rewrite <- (app_nil_l (unloadOfPrevious _)).
  apply follows_bind; [apply follows_of_emits; emits_auto|].
  intros [] _. rewrite !bind_gets.
  rewrite <- (app_nil_l (unloadOfPrevious _)).
  apply follows_bind; [apply follows_of_emits; emits_auto|].
  intros [] _. rewrite bind_gets.
  rewrite <- (app_nil_r (unloadOfPrevious _)).
  apply follows_bind; [apply follows_unloads_previous|].
  intros [] _. apply follows_of_emits. emits_auto.
Qed.

Lemma uninstall_bundled_no_unload payload :
  isBundled (details (uninstall_plugin payload)) = true →
  emits (W := W) (λ ev, isUnloadModule ev = false) (uninstallPlugin payload).
Proof. intros Hb. unfold uninstallPlugin. rewrite Hb. simpl. emits_auto. Qed.

Lemma handleCommand_unloads queue command :
  command ∈ queue →
  emits (W := W) (unloadsOnlyUnbundled queue) (handleCommand command).
Proof.
  intros Hin.
  destruct command as [payload|payload|payload|payload|ty];
    emits_auto; intros path [= <-].
  all: try (eexists; split; [eassumption|]; split; [done|]; right;
            eexists _, _, _; split; [|reflexivity]; eauto; fail).
  eexists; split; [eassumption|]; split; [done|]. left. by exists payload.
Qed.

(** C7.  A bundled plugin is never handed to the module unloader.
    [unloadPluginModule] on bundled details makes no call at all;
    uninstalling a bundled plugin, and updating a client or a device plugin
    whose registered previous version is bundled, make no [unloadModule]
    call; and in a whole drain every [unloadModule] call is for the entry of
    a details record that is not bundled, one the queue uninstalls or one
    registered in the store. *)
Theorem bundled_module_never_unloaded (queue : list PluginCommand) (w : W) :
  (∀ d w', isBundled d = true → unloadPluginModule d w' = MkOut (Ok ()) w' [])
  ∧ (∀ payload w',
       isBundled (details (uninstall_plugin payload)) = true →
       List.filter isUnloadModule (trace (uninstallPlugin payload w')) = [])
  ∧ (∀ plugin enable w' pv,
       previousClientVersion plugin enable w' = Some pv →
       isBundled (details pv) = true →
       List.filter isUnloadModule (trace (updateClientPlugin plugin enable w'))
         = [])
  ∧ (∀ plugin enable w' pv,
       previousDeviceVersion plugin enable w' = Some pv →
       isBundled (details pv) = true →
       List.filter isUnloadModule (trace (updateDevicePlugin plugin enable w'))
         = [])
  ∧ (∀ path,
       EvUnloadModule path ∈ trace (processPluginCommandsQueue queue w) →
       ∃ d, isBundled d = false ∧ entry d = path ∧ unloadCandidate (W := W) queue d).
Proof.
  split; [|split; [|split; [|split]]].
  - intros d w' Hb. unfold unloadPluginModule. by rewrite Hb.
  - intros payload w' Hb.
    by apply (emits_filter_nil isUnloadModule (uninstallPlugin payload)),
      uninstall_bundled_no_unload.
  - intros plugin enable w' pv Hprev Hb. apply follows_nil_filter.
    pose proof (updateClientPlugin_unloads plugin enable w') as Hf.
    rewrite Hprev in Hf. simpl in Hf. by rewrite Hb in Hf.
  - intros plugin enable w' pv Hprev Hb. apply follows_nil_filter.
    pose proof (updateDevicePlugin_unloads plugin enable w') as Hf.
    rewrite Hprev in Hf. simpl in Hf. by rewrite Hb in Hf.
  - intros path Hin.
    assert (He : emits (W := W) (unloadsOnlyUnbundled queue)
                   (processPluginCommandsQueue queue)).
    { unfold processPluginCommandsQueue. apply emits_bind.
      - apply emits_forEach_in. intros c Hc. unfold guardedCommand.
        apply emits_try_catch; [by apply handleCommand_unloads|].
        intros e. apply emits_emit. by intros path' [=].
      - intros _. apply emits_call. by intros path' [=]. }
    specialize (He w). rewrite Forall_forall in He.
    by apply (He _ Hin).
Qed.

End UnloadModule.

(** ** Deep links *)

Section DeepLinkFacts.
Import DeepLink.
Variable hasInstance : string → bool.

Ltac decide_all :=
  repeat (first [case_decide | case_bool_decide]; simplify_eq/=);
  try done; try congruence.

Lemma render_idempotent (c : Container) :
  render hasInstance (render hasInstance c) = render hasInstance c.
Proof.
  destruct c as [[sel pay] act last seen]. unfold render; simpl.
  destruct sel as [p|], pay as [link|]; simpl; [|by decide_all..].
  destruct (hasInstance p) eqn:Hp; simpl.
  - case_bool_decide as H1; simpl; rewrite ?Hp; simpl; decide_all.
  - rewrite Hp. simpl. decide_all.
Qed.

(** C5.  A payload reaches the deep-link handler of the selected plugin once
    per selection with that payload: selecting a plugin with a payload it
    was not just given delivers it once; selecting it again with the same
    payload while it stays selected delivers nothing; a store update that
    only re-renders delivers nothing; another payload is delivered once;
    and once another plugin has been selected in between, the same payload
    is delivered once more. *)
Theorem deeplink_once_per_selection
    (c : Container) (X Y : string) (p q : string) (py : option string) :
  hasInstance X = true →
  let c1 := step hasInstance c (SelectPlugin X (Some p)) in
  let c2 := step hasInstance c1 (SelectPlugin Y py) in
  ((active c ≠ Some X ∨ lastDeeplink c ≠ Some p) →
     linksSeen c1 = linksSeen c ++ [(X, p)])
  ∧ linksSeen (step hasInstance c1 (SelectPlugin X (Some p))) = linksSeen c1
  ∧ (∀ u, step hasInstance (step hasInstance c u) OtherUpdate
          = step hasInstance c u)
  ∧ (q ≠ p →
     linksSeen (step hasInstance c1 (SelectPlugin X (Some q)))
       = linksSeen c1 ++ [(X, q)])
  ∧ (Y ≠ X →
     linksSeen (step hasInstance c2 (SelectPlugin X (Some p)))
       = linksSeen c2 ++ [(X, p)]).
Proof.
  intros HX c1 c2. subst c1 c2.
  destruct c as [[sel pay] act last seen].
  split; [|split; [|split; [|split]]].
  - unfold step, render; simpl. rewrite HX. simpl.
    intros [Hact|Hlast]; decide_all.
  - unfold step, render; simpl. rewrite HX. simpl.
    case_bool_decide; simpl; rewrite ?HX; simpl; decide_all.
  - intros u. destruct u; simpl; apply render_idempotent.
  - intros Hq. unfold step, render; simpl. rewrite HX. simpl.
    case_bool_decide; simpl; rewrite ?HX; simpl; decide_all.
  - intros HY. unfold step, render; simpl. rewrite HX. simpl.
    case_bool_decide; simpl; destruct py as [ly|]; simpl;
      destruct (hasInstance Y) eqn:EY; simpl;
      repeat (case_bool_decide; simpl); rewrite ?HX; simpl; decide_all.
Qed.

End DeepLinkFacts.

(** ** Plugin instances, on the collaborators of the specification *)

Section HookProtocol.
Import SpecHost.

Lemma replay_from_app σ h1 h2 :
  replay_from σ (h1 ++ h2) = replay_from σ h1 ≫= λ σ', replay_from σ' h2.
Proof.
  revert σ. induction h1 as [|h h1 IH]; intros σ; simpl; [done|].
  destruct (replay_step σ h); [apply IH|done].
Qed.

Lemma replay_snoc h e σ :
  replay (h ++ [e]) = Some σ →
  ∃ σ', replay h = Some σ' ∧ replay_step σ' e = Some σ.
Proof.
  unfold replay. rewrite replay_from_app.
  destruct (replay_from _ h) as [σ'|]; simpl; [|done].
  destruct (replay_step σ' e) eqn:E; [|done]. intros [= <-]. eauto.
Qed.

Lemma replay_prefix h1 h2 σ :
  replay (h1 ++ h2) = Some σ → ∃ σ', replay h1 = Some σ'.
Proof.
  unfold replay. rewrite replay_from_app.
  destruct (replay_from _ h1) as [σ'|]; simpl; [eauto|done].
Qed.

Lemma instance_eta inst :
  {| ident := ident inst; connected := connected inst |} = inst.
Proof. by destruct inst. Qed.

(** What an accepted hook says about the table before and after it. *)
Lemma replay_step_inv σ e σ' :
  replay_step σ e = Some σ' →
  match e with
  | HCreated o p i =>
      live σ !! (o, p) = None ∧ i = born σ
      ∧ σ' = {| live := <[(o, p) := {| ident := i; connected := false |}]> (live σ);
                born := S (born σ) |}
  | HConnected o p i =>
      live σ !! (o, p) = Some {| ident := i; connected := false |}
      ∧ σ' = setConnected σ o p i true
  | HDisconnected o p i =>
      live σ !! (o, p) = Some {| ident := i; connected := true |}
      ∧ σ' = setConnected σ o p i false
  | HDestroyed o p i =>
      live σ !! (o, p) = Some {| ident := i; connected := false |}
      ∧ σ' = {| live := delete (o, p) (live σ); born := born σ |}
  | HSignal _ _ _ => σ' = σ
  end.
Proof.
  destruct e as [o p i|o p i|o p i|o p i|o m p]; simpl.
  - destruct (live σ !! (o, p)); [done|]. case_decide; [|done].
    intros [= <-]. by subst.
  - destruct (live σ !! (o, p)) as [[j b]|]; [|done]. simpl.
    case_decide; [|done]. destruct b; [done|]. intros [= <-]. by subst.
  - destruct (live σ !! (o, p)) as [[j b]|]; [|done]. simpl.
    case_decide; [|done]. destruct b; [|done]. intros [= <-]. by subst.
  - destruct (live σ !! (o, p)) as [[j b]|]; [|done]. simpl.
    case_decide; [|done]. destruct b; [done|]. intros [= <-]. by subst.
  - by intros [= <-].
Qed.

Local Arguments replay_step : simpl never.

Ltac step_inv H :=
  apply replay_step_inv in H; simpl in H; destruct_and?; simplify_eq/=.

Lemma replay_step_wf σ e σ' :
  wf σ → replay_step σ e = Some σ' → wf σ' ∧ (born σ ≤ born σ')%nat.
Proof.
  intros [Hlt Hinj] Hstep. destruct e as [o p i|o p i|o p i|o p i|o m p];
    step_inv Hstep; (split; [split|simpl; lia]); simpl.
  - intros key inst [[<- <-]|[? Hl]]%lookup_insert_Some; simpl; [lia|].
    apply Hlt in Hl. lia.
  - intros k1 k2 i1 i2 [[<- <-]|[? Hk1]]%lookup_insert_Some
      [[<- <-]|[? Hk2]]%lookup_insert_Some; simpl; try done;
      intros Heq; try (apply Hlt in Hk2; lia); try (apply Hlt in Hk1; lia);
      eauto.
  - intros key inst [[<- <-]|[? Hl]]%lookup_insert_Some; simpl; eauto.
    by apply (Hlt (o, p) _ H).
  - intros k1 k2 i1 i2 [[<- <-]|[? Hk1]]%lookup_insert_Some
      [[<- <-]|[? Hk2]]%lookup_insert_Some; simpl; try done;
      intros Heq; eauto;
      first [ by eapply (Hinj (o, p) _ _ _ H)
            | symmetry; by eapply (Hinj (o, p) _ _ _ H) ].
  - intros key inst [[<- <-]|[? Hl]]%lookup_insert_Some; simpl; eauto.
    by apply (Hlt (o, p) _ H).
  - intros k1 k2 i1 i2 [[<- <-]|[? Hk1]]%lookup_insert_Some
      [[<- <-]|[? Hk2]]%lookup_insert_Some; simpl; try done;
      intros Heq; eauto;
      first [ by eapply (Hinj (o, p) _ _ _ H)
            | symmetry; by eapply (Hinj (o, p) _ _ _ H) ].
  - intros key inst [? Hl]%lookup_delete_Some. eauto.
  - intros k1 k2 i1 i2 [? Hk1]%lookup_delete_Some [? Hk2]%lookup_delete_Some.
    eauto.
  - done.
  - eauto.
Qed.

Lemma replay_wf h σ : replay h = Some σ → wf σ.
Proof.
  revert σ. induction h as [|e h IH] using rev_ind; intros σ.
  - intros [= <-]. split; simpl; intros *; by rewrite lookup_empty.
  - intros (σ' & Hh & Hstep)%replay_snoc.
    by apply (replay_step_wf σ' e σ (IH _ Hh)).
Qed.

Lemma replay_step_ident σ e σ' i :
  wf σ → replay_step σ e = Some σ' → hookIdent e = Some i → (i < born σ')%nat.
Proof.
  intros [Hlt _] Hstep Hi.
  destruct e as [o p j|o p j|o p j|o p j|o m p]; step_inv Hstep;
    try lia; by apply (Hlt (o, p) _ H).
Qed.

Lemma replay_idents h σ e i :
  replay h = Some σ → e ∈ h → hookIdent e = Some i → (i < born σ)%nat.
Proof.
  revert σ. induction h as [|e0 h IH] using rev_ind; intros σ Hr Hin Hi.
  - by inversion Hin.
  - apply replay_snoc in Hr as (σ' & Hh & Hstep).
    pose proof (replay_wf _ _ Hh) as Hwf.
    apply elem_of_app in Hin as [Hin|Hin%list_elem_of_singleton].
    + pose proof (IH _ Hh Hin Hi).
      destruct (replay_step_wf _ _ _ Hwf Hstep) as [_ Hle]. lia.
    + subst e0. by eapply replay_step_ident.
Qed.

Lemma replay_live h σ :
  replay h = Some σ →
  ∀ o p i,
    liveIn h o p i ↔ ∃ b, live σ !! (o, p) = Some {| ident := i; connected := b |}.
Proof.
  revert σ. induction h as [|e h IH] using rev_ind; intros σ Hr o p i.
  - injection Hr as <-. unfold liveIn. simpl. rewrite lookup_empty.
    split; [intros [Hin _]; by inversion Hin | by intros [b ?]].
  - apply replay_snoc in Hr as (σ' & Hh & Hstep).
    pose proof (replay_wf _ _ Hh) as [Hlt Hinj].
    specialize (IH _ Hh).
    assert (Hfresh : ∀ o' p', HDestroyed o' p' (born σ') ∉ h
                              ∧ HCreated o' p' (born σ') ∉ h).
    { intros o' p'. split; intros Hin;
        pose proof (replay_idents _ _ _ (born σ') Hh Hin eq_refl); lia. }
    unfold liveIn in *. rewrite !elem_of_app, !list_elem_of_singleton.
    destruct e as [o' p' j|o' p' j|o' p' j|o' p' j|o' m p']; step_inv Hstep.
    all: try (destruct (decide ((o', p') = (o, p))) as [[= -> ->]|Hne];
      [rewrite ?lookup_insert_eq, ?lookup_delete_eq
      |rewrite ?lookup_insert_ne, ?lookup_delete_ne by done]).
    all: pose proof (IH o p i) as IHi.
    all: try pose proof (IH o p j) as IHj.
    all: try pose proof (Hfresh o p) as [Hf1 Hf2].
    all: clear IH Hfresh Hlt Hinj.
    all: naive_solver.
Qed.

Ltac table_inv :=
  let key := fresh "key" in
  let Hk := fresh "Hk" in
  intros [key Hk];
  first [ apply lookup_insert_Some in Hk as [[? ?]|[? Hk]]
        | apply lookup_delete_Some in Hk as [? Hk] ];
  simplify_eq/=; eauto.

Lemma alternates_app s l1 l2 :
  alternates s (l1 ++ l2) = alternates s l1 ≫= λ s', alternates s' l2.
Proof.
  revert s. induction l1 as [|b l1 IH]; intros s; simpl; [done|].
  destruct (eqb b s); [done|apply IH].
Qed.

Lemma replay_alternates h σ :
  replay h = Some σ →
  ∀ i, ∃ b,
    alternates false (omap (connectionOf i) h) = Some b
    ∧ (b = true ↔ connectedIn σ i).
Proof.
  revert σ. induction h as [|e h IH] using rev_ind; intros σ Hr i.
  - injection Hr as <-. exists false. split; [done|].
    split; [done|]. intros [key Hk]. simpl in Hk. by rewrite lookup_empty in Hk.
  - apply replay_snoc in Hr as (σ' & Hh & Hstep).
    pose proof (replay_wf _ _ Hh) as [Hlt Hinj].
    destruct (IH _ Hh i) as (b & Hb & Hiff). clear IH.
    rewrite omap_app, alternates_app, Hb. simpl. unfold connectedIn in *.
    destruct e as [o p j|o p j|o p j|o p j|o m p]; simpl; step_inv Hstep.
    + exists b. split; [done|]. rewrite Hiff. split.
      * intros [key Hk]. exists key. rewrite lookup_insert_ne; [done|].
        intros <-. congruence.
      * table_inv.
    + destruct (decide (i = j)) as [->|Hi]; simpl.
      * assert (b = false) as ->.
        { destruct b; [|done]. destruct Hiff as [[key Hk] _]; [done|].
          assert (key = (o, p)) by (eapply Hinj; eauto). simplify_eq/=. }
        simpl. exists true. split; [done|]. split; [|done]. intros _.
        exists (o, p). by rewrite lookup_insert_eq.
      * exists b. split; [done|]. rewrite Hiff. split.
        -- intros [key Hk]. exists key. rewrite lookup_insert_ne; [done|].
           intros <-. simplify_eq/=.
        -- table_inv.
    + destruct (decide (i = j)) as [->|Hi]; simpl.
      * assert (b = true) as ->.
        { apply Hiff. by exists (o, p). }
        simpl. exists false. split; [done|]. split; [done|].
        intros [key Hk].
        apply lookup_insert_Some in Hk as [[? ?]|[Hne Hk]]; [simplify_eq/=|].
        assert (key = (o, p)) by (eapply Hinj; eauto). simplify_eq/=.
      * exists b. split; [done|]. rewrite Hiff. split.
        -- intros [key Hk]. exists key. rewrite lookup_insert_ne; [done|].
           intros <-. simplify_eq/=.
        -- table_inv.
    + exists b. split; [done|]. rewrite Hiff. split.
      * intros [key Hk]. exists key. rewrite lookup_delete_ne; [done|].
        intros <-. simplify_eq/=.
      * table_inv.
    + exists b. by split.
Qed.

Lemma dead_step σ e σ' i :
  dead σ i → replay_step σ e = Some σ' →
  dead σ' i ∧ hookIdent e ≠ Some i.
Proof.
  intros [Hlt Hno] Hstep.
  destruct e as [o p j|o p j|o p j|o p j|o m p]; step_inv Hstep;
    (split; [split; simpl; [lia|]|]).
  all: try (intros key inst [[<- <-]|[? Hl]]%lookup_insert_Some; simpl;
            eauto; first [lia | by apply (Hno (o, p) _ H)]).
  all: try (intros key inst [? Hl]%lookup_delete_Some; eauto).
  all: try (intros [= <-]; first [lia | by eapply (Hno (o, p) _ H)]).
  all: eauto.
Qed.

Lemma dead_from σ h σ' i :
  dead σ i → replay_from σ h = Some σ' →
  ∀ e, e ∈ h → hookIdent e ≠ Some i.
Proof.
  revert σ. induction h as [|e0 h IH]; intros σ Hd Hr e Hin.
  - by inversion Hin.
  - simpl in Hr. destruct (replay_step σ e0) as [σ1|] eqn:E; [|done].
    destruct (dead_step _ _ _ _ Hd E) as [Hd1 Hne].
    apply elem_of_cons in Hin as [->|Hin]; [done|]. by eapply IH.
Qed.

(** After its teardown an instance has no further hook. *)
Lemma replay_destroyed_final h1 o p i h2 σ :
  replay (h1 ++ HDestroyed o p i :: h2) = Some σ →
  ∀ e, e ∈ h2 → hookIdent e ≠ Some i.
Proof.
  intros Hr. pose proof Hr as Hr'. unfold replay in Hr'.
  rewrite replay_from_app in Hr'.
  destruct (replay_from _ h1) as [σ1|] eqn:E1; [|done]. simpl in Hr'.
  destruct (replay_step σ1 (HDestroyed o p i)) as [σ2|] eqn:E2; [|done].
  pose proof (replay_wf h1 σ1 E1) as [Hlt Hinj].
  eapply dead_from; [|exact Hr'].
  step_inv E2. split; simpl; [by apply (Hlt (o, p) _ H)|].
  intros key inst [Hne Hk]%lookup_delete_Some Heq. apply Hne.
  symmetry. eapply Hinj; eauto.
Qed.

End HookProtocol.

(** ** The worlds of the specification keep to the protocol *)

Section SpecWorlds.
Import SpecHost.
Local Open Scope m_scope.
Local Arguments replay_step : simpl never.

Lemma consistent_withLife w ins next hs :
  consistent w →
  replay_from {| live := instances w; born := nextInstance w |} hs
    = Some {| live := ins; born := next |} →
  consistent (withLife w ins next hs).
Proof.
  unfold consistent, replay. simpl. intros Hw Hhs.
  by rewrite replay_from_app, Hw.
Qed.

Lemma consistent_instantiate o p w :
  consistent w → consistent (instantiate o p w).
Proof.
  intros Hw. unfold instantiate.
  destruct (instances w !! (o, p)) as [inst|] eqn:E; [done|].
  apply consistent_withLife; [done|]. simpl.
  unfold replay_step at 1; simpl. rewrite E, decide_True by done.
  unfold replay_step; simpl. rewrite lookup_insert_eq. simpl.
  rewrite decide_True by done. unfold setConnected; simpl.
  by rewrite insert_insert_eq.
Qed.

Lemma consistent_connect o p w :
  consistent w → consistent (connect o p w).
Proof.
  intros Hw. unfold connect.
  destruct (instances w !! (o, p)) as [[i b]|] eqn:E; [|done]. simpl.
  destruct b; [done|].
  apply consistent_withLife; [done|]. simpl.
  unfold replay_step; simpl. rewrite E. simpl. by rewrite decide_True.
Qed.

Lemma consistent_disconnect o p w :
  consistent w → consistent (disconnect o p w).
Proof.
  intros Hw. unfold disconnect.
  destruct (instances w !! (o, p)) as [[i b]|] eqn:E; [|done]. simpl.
  destruct b; [|done].
  apply consistent_withLife; [done|]. simpl.
  unfold replay_step; simpl. rewrite E. simpl. by rewrite decide_True.
Qed.

Lemma consistent_destroy o p w :
  consistent w → consistent (destroy o p w).
Proof.
  intros Hw. unfold destroy.
  destruct (instances w !! (o, p)) as [[i b]|] eqn:E; [|done]. simpl.
  apply consistent_withLife; [done|]. destruct b; simpl.
  - unfold replay_step at 1; simpl. rewrite E. simpl.
    rewrite decide_True by done. unfold setConnected. simpl.
    unfold replay_step; simpl. rewrite lookup_insert_eq. simpl.
    rewrite decide_True by done. by rewrite delete_insert_eq.
  - unfold replay_step; simpl. rewrite E. simpl. by rewrite decide_True.
Qed.

Lemma consistent_signal o m p w : consistent w → consistent (signal o m p w).
Proof. intros Hw. unfold signal. by apply consistent_withLife. Qed.

Lemma consistent_withStore w s : consistent w → consistent (withStore w s).
Proof. done. Qed.

(** A computation that keeps the world consistent. *)
Lemma keeps_ret {A} (a : A) : keeps (ret a).
Proof. by intros w Hw. Qed.

Lemma keeps_gets {A} (g : SpecWorld → A) : keeps (gets g).
Proof. by intros w Hw. Qed.

Lemma keeps_emit ev : keeps (emit ev).
Proof. by intros w Hw. Qed.

Lemma keeps_call {A} ev (op : SpecWorld → Res A * SpecWorld) :
  (∀ w, consistent w → consistent (op w).2) → keeps (call ev op).
Proof. intros Hop w Hw. by apply Hop. Qed.

Lemma keeps_bind {A B} (m : M SpecWorld A) (f : A → M SpecWorld B) :
  keeps m → (∀ a, keeps (f a)) → keeps (bind m f).
Proof.
  intros Hm Hf w Hw. rewrite world_bind.
  destruct (res (m w)) as [a|e]; [apply Hf|]; by apply Hm.
Qed.

Lemma keeps_try_catch {A} (m : M SpecWorld A) h :
  keeps m → (∀ e, keeps (h e)) → keeps (try_catch m h).
Proof.
  intros Hm Hh w Hw. rewrite world_try_catch.
  destruct (res (m w)) as [a|e]; [|apply Hh]; by apply Hm.
Qed.

Lemma keeps_forEach {X} (xs : list X) (f : X → M SpecWorld ()) :
  (∀ x, keeps (f x)) → keeps (forEach xs f).
Proof.
  intros Hf. induction xs as [|x xs IH]; simpl.
  - apply keeps_ret.
  - by apply keeps_bind.
Qed.

Ltac keeps_step :=
  lazymatch goal with
  | |- keeps (ret _) => apply keeps_ret
  | |- keeps (gets _) => apply keeps_gets
  | |- keeps (emit _) => apply keeps_emit
  | |- keeps (call _ _) =>
      apply keeps_call; intros; simpl; repeat case_match; simpl;
      unfold spec_initPlugin, spec_deinitPlugin;
      eauto using consistent_instantiate, consistent_connect,
        consistent_disconnect, consistent_destroy, consistent_signal,
        consistent_withStore
  | |- keeps (bind _ _) => apply keeps_bind; [|intros]
  | |- keeps (try_catch _ _) => apply keeps_try_catch; [|intros]
  | |- keeps (forEach _ _) => apply keeps_forEach; intros
  | |- keeps (match _ with _ => _ end) => case_match
  end.

Lemma keeps_handleCommand command : keeps (handleCommand command).
Proof. destruct command; unfold_manager; repeat keeps_step. Qed.

Lemma keeps_runOp op : keeps (runOp op).
Proof.
  destruct op; simpl; try (unfold_manager; repeat keeps_step; fail).
  unfold processPluginCommandsQueue, guardedCommand.
  apply keeps_bind; [|intros; unfold_manager; repeat keeps_step].
  apply keeps_forEach. intros command.
  apply keeps_try_catch; [apply keeps_handleCommand|].
  intros; unfold_manager; repeat keeps_step.
Qed.

Lemma consistent_pristine w : pristine w → consistent w.
Proof.
  intros (Hi & Hn & Hh). unfold consistent. rewrite Hi, Hn, Hh. done.
Qed.

Lemma consistent_history ops w : consistent w → consistent (history ops w).
Proof.
  revert w. induction ops as [|op ops IH]; intros w Hw; simpl; [done|].
  apply IH. by apply keeps_runOp.
Qed.


(** *** What the primitives do to the table *)

Lemma startPlugin_world c P force w :
  world (startPlugin c P force w) =
    let w' := instantiate (OwnerClient (client_id c)) (plugin_id P) w in
    if backgroundSignalDue force c (plugin_id P) w'
    then spec_initPlugin c (plugin_id P) w' else w'.
Proof.
  unfold startPlugin. rewrite world_bind. unfold startPluginIfNeeded.
  rewrite res_call, world_call.
  change (client_startPluginIfNeeded c P w)
    with (Ok (), instantiate (OwnerClient (client_id c)) (plugin_id P) w).
  cbn [fst snd]. rewrite bind_gets.
  by destruct (backgroundSignalDue _ _ _ _).
Qed.

Lemma stopPlugin_world c pid force w :
  world (stopPlugin c pid force w) =
    destroy (OwnerClient (client_id c)) pid
      (if backgroundSignalDue force c pid w then spec_deinitPlugin c pid w
       else w).
Proof.
  unfold stopPlugin. rewrite bind_gets, world_bind.
  destruct (backgroundSignalDue _ _ _ _).
  - unfold deinitPlugin. rewrite res_call, world_call.
    change (client_deinitPlugin c pid w) with (Ok (), spec_deinitPlugin c pid w).
    cbn [fst snd]. by rewrite world_bind.
  - cbn [ret res world]. by rewrite world_bind.
Qed.

Lemma idents_connect o p w : idents (connect o p w) = idents w.
Proof.
  unfold connect, idents.
  destruct (instances w !! (o, p)) as [[i b]|] eqn:E; [|done].
  destruct b; [done|]. simpl. rewrite fmap_insert. simpl.
  apply insert_id. by rewrite lookup_fmap, E.
Qed.

Lemma idents_disconnect o p w : idents (disconnect o p w) = idents w.
Proof.
  unfold disconnect, idents.
  destruct (instances w !! (o, p)) as [[i b]|] eqn:E; [|done].
  destruct b; [|done]. simpl. rewrite fmap_insert. simpl.
  apply insert_id. by rewrite lookup_fmap, E.
Qed.

Lemma nextInstance_connect o p w :
  nextInstance (connect o p w) = nextInstance w.
Proof. unfold connect. by repeat case_match. Qed.

Lemma nextInstance_disconnect o p w :
  nextInstance (disconnect o p w) = nextInstance w.
Proof. unfold disconnect. by repeat case_match. Qed.

Lemma idents_instantiate o p w :
  idents (instantiate o p w) !! (o, p)
    = Some (default (nextInstance w) (idents w !! (o, p))).
Proof.
  unfold instantiate, idents. rewrite (lookup_fmap _ (instances w)).
  destruct (instances w !! (o, p)) as [inst|] eqn:E; simpl.
  - by rewrite lookup_fmap, E.
  - by rewrite lookup_fmap, lookup_insert_eq.
Qed.

Lemma idents_destroy o p w : idents (destroy o p w) !! (o, p) = None.
Proof.
  unfold destroy, idents. rewrite lookup_fmap.
  destruct (instances w !! (o, p)) as [inst|] eqn:E; simpl.
  - by rewrite lookup_delete_eq.
  - by rewrite E.
Qed.

Lemma hooks_destroy o p w i :
  idents w !! (o, p) = Some i → HDestroyed o p i ∈ hooks (destroy o p w).
Proof.
  unfold destroy, idents. rewrite lookup_fmap.
  destruct (instances w !! (o, p)) as [inst|] eqn:E; simpl; [|done].
  intros [= <-]. rewrite !elem_of_app. right. right. by left.
Qed.

Lemma nextInstance_destroy o p w :
  nextInstance (destroy o p w) = nextInstance w.
Proof. unfold destroy. by repeat case_match. Qed.

(** The identity of an instance in the table has been used. *)
Lemma consistent_ident_used w key i :
  consistent w → idents w !! key = Some i → (i < nextInstance w)%nat.
Proof.
  intros Hw. unfold idents. rewrite lookup_fmap.
  destruct (instances w !! key) as [inst|] eqn:E; [|done]. intros [= <-].
  apply replay_wf in Hw as [Hlt _]. by apply (Hlt key).
Qed.


End SpecWorlds.

(** ** The properties at work *)

Section Scenarios.
Import SpecHost Fixtures.

(** A drain in which the store refuses [pluginLoaded]: the update and the
    load both fail, the switch after them is handled, and all three
    commands are reported processed. *)
Example drain_with_failing_store :
  let queue :=
    [UPDATE_PLUGIN {| update_plugin := testPlugin; enablePlugin := false |};
     LOAD_PLUGIN loadTest; SWITCH_PLUGIN switchTest] in
  let o := processPluginCommandsQueue queue (world0, storeDown) in
  res o = Ok ()
  ∧ omap messageOf (trace o) =
      ["Failed to process command"; loadFailedLog testDetails;
       loadFailedNotification testDetails]
  ∧ last (trace o) = Some (EvDispatch (pluginCommandsProcessed 3))
  ∧ List.filter isProcessedDispatch (trace o)
      = [EvDispatch (pluginCommandsProcessed 3)].
Proof. vm_compute. done. Qed.

(** A load during which the client fails to set the plugin up: the
    exception of the update is caught by [loadPlugin]. *)
Example load_with_failing_setup :
  let o := loadPlugin loadTest (world0, setupFails) in
  res o = Ok ()
  ∧ omap messageOf (trace o) =
      [loadFailedLog testDetails; loadFailedNotification testDetails]
  ∧ List.filter isIfNeededCall (trace o) =
      [EvStopPluginIfNeeded testClient "TestPlugin";
       EvStartPluginIfNeeded testClient testPlugin].
Proof. vm_compute. done. Qed.

(** The scenario of the container test: the plugin is started, deselected,
    selected again, disabled and enabled again.  The first instance is
    connected twice and disconnected twice; the second one is a new
    instance, connected once. *)
Example disable_and_enable_again :
  let w :=
    history
      [OpStartPlugin testClient testPlugin false;
       OpDeinitPlugin testClient "TestPlugin";
       OpInitPlugin testClient "TestPlugin";
       OpDrain [SWITCH_PLUGIN switchTest];
       OpDrain [SWITCH_PLUGIN switchTest]]
      worldEnabled in
  omap (connectionOf 0) (hooks w) = [true; false; true; false]
  ∧ omap (connectionOf 1) (hooks w) = [true]
  ∧ idents w !! (OwnerClient (client_id testClient), "TestPlugin") = Some 1.
Proof. vm_compute. done. Qed.

(** The scenario of the deep-link test: three deliveries. *)
Example deeplink_scenario :
  DeepLink.linksSeen
    (DeepLink.run (String.eqb "TestPlugin")
       [DeepLink.SelectPlugin "TestPlugin" None;
        DeepLink.SelectPlugin "TestPlugin" (Some "universe!");
        DeepLink.SelectPlugin "TestPlugin" (Some "universe!");
        DeepLink.OtherUpdate;
        DeepLink.SelectPlugin "TestPlugin" (Some "london!");
        DeepLink.SelectPlugin "Logs" (Some "london!");
        DeepLink.SelectPlugin "TestPlugin" (Some "london!")])
  = [("TestPlugin", "universe!"); ("TestPlugin", "london!");
     ("TestPlugin", "london!")].
Proof. vm_compute. done. Qed.


(** Selecting the test plugin twice with the same payload. *)
Lemma deeplink_once_per_selection_witness :
  String.eqb "TestPlugin" "TestPlugin" = true
  ∧ DeepLink.linksSeen
      (DeepLink.step (String.eqb "TestPlugin")
         (DeepLink.step (String.eqb "TestPlugin") DeepLink.initial
            (DeepLink.SelectPlugin "TestPlugin" (Some "universe!")))
         (DeepLink.SelectPlugin "TestPlugin" (Some "universe!")))
    = DeepLink.linksSeen
        (DeepLink.step (String.eqb "TestPlugin") DeepLink.initial
           (DeepLink.SelectPlugin "TestPlugin" (Some "universe!"))).
Proof.
  split; [reflexivity|].
  apply (deeplink_once_per_selection (String.eqb "TestPlugin")
           DeepLink.initial "TestPlugin" "Logs" "universe!" "london!" None).
  reflexivity.
Defined.

(** [world0] registers the bundled version: neither uninstalling it nor
    updating over it unloads a module. *)
Lemma bundled_module_never_unloaded_witness :
  isBundled (details bundledPlugin) = true
  ∧ previousClientVersion testPlugin true world0 = Some bundledPlugin
  ∧ List.filter isUnloadModule
      (trace (uninstallPlugin {| uninstall_plugin := bundledPlugin |} world0))
    = []
  ∧ List.filter isUnloadModule (trace (updateClientPlugin testPlugin true world0))
    = [].
Proof.
  destruct (bundled_module_never_unloaded [] world0)
    as (_ & Huninstall & Hclient & _).
  split; [reflexivity|]. split; [vm_compute; reflexivity|].
  split.
  - apply Huninstall. reflexivity.
  - apply (Hclient testPlugin true world0 bundledPlugin);
      [vm_compute|]; reflexivity.
Defined.

(** The test plugin is a background plugin outside the default set: it is
    initialised when started. *)
Lemma background_signal_iff_due_witness :
  (client_startPluginIfNeeded testClient testPlugin world0).1 = Ok ()
  ∧ (EvInitPlugin testClient "TestPlugin"
       ∈ trace (startPlugin testClient testPlugin false world0)
     ↔ client_isBackgroundPlugin testClient "TestPlugin"
         (client_startPluginIfNeeded testClient testPlugin world0).2 = true
       ∧ (false = true
          ∨ "TestPlugin" ∉ defaultEnabledBackgroundPlugins (W := SpecWorld))).
Proof.
  split; [reflexivity|].
  apply (background_signal_iff_due testClient testPlugin "TestPlugin" false
           world0).
  reflexivity.
Defined.

(** In [world0] the plugin is disabled for the app; updating it with the
    enable flag stops and starts it on the client all the same. *)
Lemma updateClientPlugin_enables_before_filter_witness :
  includes_opt
    (enabledPlugins (connections (getState world0)) !! "TestApp") "TestPlugin"
    = false
  ∧ truthy_app (selectedAppName world0) = Some "TestApp"
  ∧ host_dispatch (setPluginEnabled "TestPlugin" "TestApp") world0
    = (Ok (), worldEnabled)
  ∧ testClient
      ∈ clientsWithEnabledPlugin testPlugin
          (getAllClients (connections (getState world0))) worldEnabled
  ∧ EvStopPluginIfNeeded testClient "TestPlugin"
      ∈ trace (updateClientPlugin testPlugin true world0)
  ∧ EvStartPluginIfNeeded testClient testPlugin
      ∈ trace (updateClientPlugin testPlugin true world0).
Proof.
  split; [vm_compute; reflexivity|].
  split; [vm_compute; reflexivity|].
  split; [reflexivity|].
  destruct (updateClientPlugin_enables_before_filter testPlugin world0
              worldEnabled "TestApp" testClient)
    as (Hin & _ & _ & Hcalls).
  - vm_compute; reflexivity.
  - reflexivity.
  - vm_compute; reflexivity.
  - apply list_elem_of_here.
  - reflexivity.
  - vm_compute; reflexivity.
  - split; [exact Hin|]. apply Hcalls. vm_compute; reflexivity.
Defined.

End Scenarios.

(** * Further properties of the handlers *)

(** ** Uninstalling (lines 146-166) *)

Section Uninstall.
Context {W : Type} `{!Host W}.
Local Open Scope m_scope.

Lemma filter_signal_report plugin e :
  List.filter notBackgroundSignal (uninstallFailureReport plugin e)
  = uninstallFailureReport plugin e.
Proof. done. Qed.

(** The [try] block of [uninstallPlugin]. *)
Lemma uninstall_body_follows (plugin : PluginDefinition) (w : W) :
  follows notBackgroundSignal
    (map (λ c, EvStopPluginIfNeeded c (plugin_id plugin))
       (clients (connections (getState w)))
     ++ unloadOfDetails (details plugin)
     ++ [EvDispatch (pluginUninstalled (details plugin))])
    ((clients <- gets (λ w, clients (connections (getState w))) ;;
      forEach clients (λ client,
        stopPlugin client (plugin_id plugin) false ;; ret ()) ;;
      (if negb (isBundled (details plugin)) then
         unloadPluginModule (details plugin)
       else ret ()) ;;
      dispatch (pluginUninstalled (details plugin))) w).
Proof.
  rewrite bind_gets. apply follows_bind.
  { apply follows_forEach_one. intros c w'.
    rewrite <- (app_nil_r [_]). apply follows_bind.
    - apply follows_stopPlugin_signal.
    - intros; apply follows_ret. }
  intros [] _. apply follows_bind.
  { unfold unloadOfDetails, unloadPluginModule.
    destruct (isBundled (details plugin)); simpl.
    - apply follows_ret.
    - by apply follows_call_kept. }
  intros [] _. by apply follows_call_kept.
Qed.


End Uninstall.

(** ** Switching a device plugin (lines 226-242) *)

Section SwitchDevice.
Context {W : Type} `{!Host W}.
Local Open Scope m_scope.

(** X2.  [switchDevicePlugin] is a toggle on the global set of enabled
    device plugins.  On the devices that support the details of the plugin
    it makes these calls and no other, in this order: if the plugin is
    enabled, [unloadDevicePlugin] on each device and then
    [setDevicePluginDisabled]; if not, [loadDevicePlugin] on each device and
    then [setDevicePluginEnabled].  An exception ends the sequence where it
    is raised. *)
Theorem switchDevicePlugin_toggles (plugin : PluginDefinition) (w : W) :
  let pid := plugin_id plugin in
  let ds :=
    List.filter (λ d, device_supportsPlugin d (OfDetails (details plugin)) w)
      (devices (connections (getState w))) in
  follows everyCall
    (if bool_decide (pid ∈ enabledDevicePlugins (connections (getState w)))
     then map (λ d, EvUnloadDevicePlugin d pid) ds
          ++ [EvDispatch (setDevicePluginDisabled pid)]
     else map (λ d, EvLoadDevicePlugin d plugin) ds
          ++ [EvDispatch (setDevicePluginEnabled pid)])
    (switchDevicePlugin plugin w).
Proof.
  intros pid ds. unfold switchDevicePlugin. rewrite !bind_gets. fold ds pid.
  destruct (bool_decide _).
  - apply follows_bind; [|intros; by apply follows_call_kept].
    apply follows_forEach_one. intros; by apply follows_call_kept.
  - apply follows_bind; [|intros; by apply follows_call_kept].
    apply follows_forEach_one. intros; by apply follows_call_kept.
Qed.

End SwitchDevice.

(** ** The whole of a client plugin update (lines 244-276) *)

Section UpdateClientSequence.
Context {W : Type} `{!Host W}.
Local Open Scope m_scope.

Lemma enableForSelectedApp_follows plugin enable (w : W) :
  follows notBackgroundSignal (enableOfSelectedApp plugin enable w)
    (enableForSelectedApp plugin enable w).
Proof.
  unfold enableOfSelectedApp, enableForSelectedApp. destruct enable.
  - unfold getSelectedAppName. rewrite bind_gets.
    destruct (truthy_app (selectedAppName w)).
    + by apply follows_call_kept.
    + apply follows_ret.
  - apply follows_ret.
Qed.

Lemma unloadOfPrevious_follows (prev : option PluginDefinition) (w : W) :
  follows notBackgroundSignal (unloadOfPrevious prev)
    (match prev with
     | Some previousVersion => unloadPluginModule (details previousVersion)
     | None => ret ()
     end w).
Proof.
  destruct prev as [pv|]; simpl; [|apply follows_ret].
  unfold unloadPluginModule. destruct (isBundled (details pv)).
  - apply follows_ret.
  - by apply follows_call_kept.
Qed.

(** X3.  The background signals aside, [updateClientPlugin] makes these calls
    and no other, in this order: [setPluginEnabled] for the selected app if
    the enable flag is set and an app is selected; [stopPluginIfNeeded] on
    every client with the plugin enabled; [startPluginIfNeeded] on the same
    clients; [pluginLoaded]; and last [unloadModule] for the previous
    version, the one registered before the first stop, unless it is bundled.
    An exception ends the sequence where it is raised, so a module is
    unloaded only once the new definition is registered. *)
Theorem updateClientPlugin_call_sequence
    (plugin : PluginDefinition) (enable : bool) (w : W) :
  let pid := plugin_id plugin in
  let cs :=
    clientsWithEnabledPlugin plugin (getAllClients (connections (getState w)))
      (world (enableForSelectedApp plugin enable w)) in
  follows notBackgroundSignal
    (enableOfSelectedApp plugin enable w
     ++ map (λ c, EvStopPluginIfNeeded c pid) cs
     ++ map (λ c, EvStartPluginIfNeeded c plugin) cs
     ++ [EvDispatch (pluginLoaded plugin)]
     ++ unloadOfPrevious (previousClientVersion plugin enable w))
    (updateClientPlugin plugin enable w).
Proof.
  intros pid cs. unfold updateClientPlugin, previousClientVersion.
  rewrite bind_gets. apply follows_bind; [apply enableForSelectedApp_follows|].
  intros [] _. rewrite !bind_gets. fold cs pid.
  apply follows_bind.
  { apply follows_forEach_one. intros c w'.
    rewrite <- (app_nil_r [_]). apply follows_bind.
    - apply follows_stopPlugin_signal.
    - intros; apply follows_ret. }
  intros [] _. apply follows_bind.
  { apply follows_forEach_one. intros; apply follows_startPlugin_signal. }
  intros [] _. apply follows_bind; [by apply follows_call_kept|].
  intros [] _. apply unloadOfPrevious_follows.
Qed.

End UpdateClientSequence.

(** ** What a handler never does *)

Section Never.
Context {W : Type} `{!Host W}.
Local Open Scope m_scope.

(** The value a call returns is a value of the operation. *)
Lemma emits_bind_call {A B} (P : Event → Prop) ev (op : W → Res A * W)
    (f : A → M W B) :
  P ev → (∀ w a, (op w).1 = Ok a → emits P (f a)) →
  emits P (bind (call ev op) f).
Proof.
  intros Hev Hf w. rewrite trace_bind, res_call, trace_call.
  constructor; [done|]. destruct (op w).1 as [a|e] eqn:E; [|constructor].
  by apply (Hf w a).
Qed.

Lemma updatePlugin_calls payload :
  emits (W := W) (callOfCommand (UPDATE_PLUGIN payload)) (updatePlugin payload).
Proof.
  destruct payload as [p enable]. unfold updatePlugin. simpl.
  destruct (isDevicePluginDefinition p).
  - unfold updateDevicePlugin. destruct enable; emits_auto.
  - unfold updateClientPlugin, enableForSelectedApp. destruct enable; emits_auto.
Qed.

(** X4.  Handling a command makes only the calls of its kind of command, and
    only on its own plugin: an update enables, registers, stops, starts,
    loads and unloads the plugin of its payload, and never disables a plugin
    or clears a message queue; an uninstall stops the plugin, unloads its
    module if it is not bundled and dispatches [pluginUninstalled], and never
    touches an enabled flag; a switch never registers, unregisters, resolves
    or unloads anything; a load resolves the details of its payload and then
    does what an update does. *)
Theorem handleCommand_calls_own_plugin (command : PluginCommand) (w : W) :
  Forall (callOfCommand command) (trace (handleCommand command w)).
Proof.
  revert w. change (emits (callOfCommand command) (handleCommand command)).
  destruct command as [payload|payload|payload|payload|ty]; simpl.
  - unfold loadPlugin. apply emits_try_catch.
    + unfold requirePlugin. apply emits_bind_call; [done|].
      intros w p _.
      pose proof (updatePlugin_calls
        {| update_plugin := p; enablePlugin := enable payload |}) as Hu.
      intros w'. specialize (Hu w'). eapply Forall_impl; [exact Hu|].
      intros ev. simpl. destruct ev as [| [] | | | | | | | | |]; simpl; tauto.
    + intros e. emits_auto.
  - destruct payload as [p]. unfold uninstallPlugin. simpl.
    destruct (isBundled (details p)) eqn:Hb; simpl; emits_auto.
  - apply updatePlugin_calls.
  - destruct payload as [p a]. emits_auto.
  - by apply emits_emit.
Qed.


Lemma device_update_no_client_call plugin enable :
  emits (W := W) (λ ev, isClientCall ev = false)
    (updateDevicePlugin plugin enable).
Proof. emits_auto. Qed.

Lemma device_switch_no_client_call plugin :
  emits (W := W) (λ ev, isClientCall ev = false) (switchDevicePlugin plugin).
Proof. emits_auto. Qed.

Lemma client_update_no_device_call plugin enable :
  emits (W := W) (λ ev, isDeviceCall ev = false)
    (updateClientPlugin plugin enable).
Proof. emits_auto. Qed.

Lemma client_switch_no_device_call plugin selectedApp :
  emits (W := W) (λ ev, isDeviceCall ev = false)
    (switchClientPlugin plugin selectedApp).
Proof. emits_auto. Qed.

(** X5.  The two kinds of plugin are kept apart.  Updating or switching a
    device plugin makes no call on a client and dispatches nothing about
    client plugins; updating or switching a client plugin makes no call on a
    device and dispatches nothing about device plugins. *)
Theorem plugin_kinds_kept_apart
    (plugin : PluginDefinition) (enable : bool) (selectedApp : option string)
    (w : W) :
  let update :=
    updatePlugin {| update_plugin := plugin; enablePlugin := enable |} w in
  let switch :=
    switchPlugin {| switch_plugin := plugin; selectedApp := selectedApp |} w in
  (isDevicePluginDefinition plugin = true →
     Forall (λ ev, isClientCall ev = false) (trace update)
     ∧ Forall (λ ev, isClientCall ev = false) (trace switch))
  ∧ (isDevicePluginDefinition plugin = false →
     Forall (λ ev, isDeviceCall ev = false) (trace update)
     ∧ Forall (λ ev, isDeviceCall ev = false) (trace switch)).
Proof.
  intros update switch. subst update switch.
  unfold updatePlugin, switchPlugin. simpl. split; intros ->; split.
  - apply (device_update_no_client_call plugin enable).
  - apply (device_switch_no_client_call plugin).
  - apply (client_update_no_device_call plugin enable).
  - apply (client_switch_no_device_call plugin selectedApp).
Qed.

Lemma signals_handleCommand command :
  emits (W := W) signalJustified (handleCommand command).
Proof.
  destruct command as [payload|payload|payload|payload|ty];
    emits_auto; simpl; try done; eauto.
  all: repeat match goal with
       | Hd : backgroundSignalDue _ _ _ _ = true |- _ =>
           apply backgroundSignalDue_spec in Hd as [? [?|?]]
       end; try done; eauto.
Qed.

Lemma signals_unforced_switch payload :
  emits (W := W) signalUnforced (switchPlugin payload).
Proof.
  emits_auto; simpl; try done.
  all: repeat match goal with
       | Hd : backgroundSignalDue _ _ _ _ = true |- _ =>
           apply backgroundSignalDue_spec in Hd as [? [?|?]]
       end; done.
Qed.

Lemma signals_unforced_uninstall payload :
  emits (W := W) signalUnforced (uninstallPlugin payload).
Proof.
  emits_auto; simpl; try done.
  all: repeat match goal with
       | Hd : backgroundSignalDue _ _ _ _ = true |- _ =>
           apply backgroundSignalDue_spec in Hd as [? [?|?]]
       end; done.
Qed.


End Never.

(** ** The registry flag of a switch (lines 185-242) *)

Section SwitchFlag.
Context {W : Type} `{!Host W}.
Local Open Scope m_scope.

Lemma flag_after_loop (m : M W ()) (a : Action) (w : W) ev :
  emits (λ ev, isFlagDispatch ev = false) m →
  isFlagDispatch ev = true →
  ev ∈ trace ((m ;; dispatch a) w) →
  res (m w) = Ok ()
  ∧ trace ((m ;; dispatch a) w) = trace (m w) ++ [ev]
  ∧ Forall (λ ev, isFlagDispatch ev = false) (trace (m w)).
Proof.
  intros Hm Hev Hin. specialize (Hm w). rewrite trace_bind in Hin |- *.
  apply elem_of_app in Hin as [Hin|Hin].
  { rewrite Forall_forall in Hm. specialize (Hm _ Hin). congruence. }
  destruct (res (m w)) as [[]|e]; [|by inversion Hin].
  apply list_elem_of_singleton in Hin as ->. done.
Qed.

Lemma client_stops_no_flag plugin cs :
  emits (W := W) (λ ev, isFlagDispatch ev = false)
    (forEach cs (λ client,
       stopPlugin client (plugin_id plugin) false ;;
       dispatch (clearMessageQueue
         (getPluginKey (client_id client) (device_id (query client))
            (plugin_id plugin))))).
Proof. emits_auto. Qed.

Lemma client_starts_no_flag plugin cs :
  emits (W := W) (λ ev, isFlagDispatch ev = false)
    (forEach cs (λ client, startPlugin client plugin false)).
Proof. emits_auto. Qed.

Lemma device_unloads_no_flag pid (ds : list Device) :
  emits (W := W) (λ ev, isFlagDispatch ev = false)
    (forEach ds (λ d, unloadDevicePlugin d pid)).
Proof. emits_auto. Qed.

Lemma device_loads_no_flag plugin (ds : list Device) :
  emits (W := W) (λ ev, isFlagDispatch ev = false)
    (forEach ds (λ d, loadDevicePlugin d plugin)).
Proof. emits_auto. Qed.

(** X7.  A switch flips the enabled flag at most once and as its last call:
    if a [setPluginEnabled], [setPluginDisabled], [setDevicePluginEnabled] or
    [setDevicePluginDisabled] dispatch is in the trace of [switchPlugin], it
    is the last call of the trace and no call before it is such a dispatch.
    So when a stop, a start, a load, an unload or a [clearMessageQueue]
    throws, the flag is left as it was. *)
Theorem switchPlugin_flips_flag_last
    (payload : SwitchPluginActionPayload) (w : W) (ev : Event) :
  isFlagDispatch ev = true →
  ev ∈ trace (switchPlugin payload w) →
  ∃ t, trace (switchPlugin payload w) = t ++ [ev]
       ∧ Forall (λ ev, isFlagDispatch ev = false) t.
Proof.
  intros Hev. destruct payload as [plugin selectedApp].
  unfold switchPlugin. simpl. destruct (isDevicePluginDefinition plugin).
  - unfold switchDevicePlugin. rewrite !bind_gets.
    destruct (bool_decide _); intros Hin;
      eapply flag_after_loop in Hin as (_ & Ht & Hno);
      eauto using device_unloads_no_flag, device_loads_no_flag.
  - unfold switchClientPlugin.
    assert (Hsel :
      ∀ k : option string → M W (),
        (sel <- match selectedApp with
                | Some a => ret (Some a)
                | None => getSelectedAppName
                end ;; k sel) w
        = k match selectedApp with
            | Some a => Some a
            | None => selectedAppName w
            end w).
    { intros k. destruct selectedApp; [apply bind_ret|].
      unfold getSelectedAppName. apply bind_gets. }
    rewrite Hsel. clear Hsel.
    destruct (truthy_app _) as [a|]; [|intros Hin; by inversion Hin].
    rewrite bind_gets.
    destruct (includes_opt _ _); intros Hin;
      eapply flag_after_loop in Hin as (_ & Ht & Hno);
      eauto using client_stops_no_flag, client_starts_no_flag.
Qed.

End SwitchFlag.

(** ** Snapshots (lines 96-126) *)

Section Snapshots.
Context {W : Type} `{!Host W}.

(** X8.  The loop over a snapshot that is the concatenation of two does what
    two loops in a row do: it never throws, the second part is handled from
    the state the first part left, whatever failed there, and the trace is
    the two traces one after the other; the drain then reports the sum of
    the two lengths. *)
Theorem drain_of_concatenated_snapshots
    (q1 q2 : list PluginCommand) (w : W) :
  let loop (q : list PluginCommand) := forEach q guardedCommand in
  let w1 := world (loop q1 w) in
  res (loop (q1 ++ q2) w) = Ok ()
  ∧ world (loop (q1 ++ q2) w) = world (loop q2 w1)
  ∧ trace (loop (q1 ++ q2) w) = trace (loop q1 w) ++ trace (loop q2 w1)
  ∧ trace (processPluginCommandsQueue (q1 ++ q2) w)
    = trace (loop q1 w) ++ trace (loop q2 w1)
      ++ [EvDispatch (pluginCommandsProcessed (length q1 + length q2))].
Proof.
  intros loop w1.
  assert (Hok : ∀ q w', res (loop q w') = Ok ()).
  { intros q w'. destruct (drain_loop q w') as (wq & tq & _ & Hrun & _).
    subst loop. cbv beta. by rewrite Hrun. }
  assert (Happ : world (loop (q1 ++ q2) w) = world (loop q2 w1)
                 ∧ trace (loop (q1 ++ q2) w)
                   = trace (loop q1 w) ++ trace (loop q2 w1)).
  { subst w1. revert w. induction q1 as [|c q1 IH]; intros w; [done|].
    subst loop. simpl. rewrite !world_bind, !trace_bind.
    rewrite (guardedCommand_ok c w). destruct (IH (world (guardedCommand c w)))
      as [IHw IHt]. split; [done|]. by rewrite IHt, app_assoc. }
  destruct Happ as [Hw Ht]. split; [done|]. split; [done|]. split; [done|].
  unfold processPluginCommandsQueue. rewrite trace_bind.
  fold (loop (q1 ++ q2)). rewrite Hok, Ht, length_app, <- app_assoc. done.
Qed.

End Snapshots.

(** ** Failures and their reports *)

Section Reports.
Context {W : Type} `{!Host W}.
Local Open Scope m_scope.

Lemma calm_ret {A} P (a : A) : calm (W := W) P (ret a).
Proof. intros w. split; [by exists a|constructor]. Qed.

Lemma calm_gets {A} P (g : W → A) : calm P (gets g).
Proof. intros w. split; [by eexists|constructor]. Qed.

Lemma calm_emit (P : Event → Prop) ev : P ev → calm (W := W) P (emit ev).
Proof. intros Hev w. split; [by eexists|by repeat constructor]. Qed.

Lemma calm_call {A} (P : Event → Prop) ev (op : W → Res A * W) :
  P ev → (∀ w, ∃ a, (op w).1 = Ok a) → calm P (call ev op).
Proof. intros Hev Hop w. split; [apply Hop|by repeat constructor]. Qed.

Lemma calm_bind {A B} P (m : M W A) (f : A → M W B) :
  calm P m → (∀ a, calm P (f a)) → calm P (bind m f).
Proof.
  intros Hm Hf w. destruct (Hm w) as [[a Ha] Ht].
  rewrite res_bind, trace_bind, Ha. destruct (Hf a (world (m w))) as [Hr Hft].
  split; [done|]. by apply Forall_app.
Qed.

Lemma calm_try_catch {A} P (m : M W A) h : calm P m → calm P (try_catch m h).
Proof.
  intros Hm w. destruct (Hm w) as [[a Ha] Ht].
  rewrite res_try_catch, trace_try_catch, Ha, app_nil_r. eauto.
Qed.

Lemma calm_forEach {X} P (xs : list X) (f : X → M W ()) :
  (∀ x, calm P (f x)) → calm P (forEach xs f).
Proof.
  intros Hf. induction xs as [|x xs IH]; simpl.
  - apply calm_ret.
  - by apply calm_bind.
Qed.

End Reports.

Ltac calm_step NT :=
  lazymatch goal with
  | |- calm _ (ret _) => apply calm_ret
  | |- calm _ (gets _) => apply calm_gets
  | |- calm _ (emit _) => apply calm_emit
  | |- calm _ (call _ _) =>
      apply calm_call;
      [|intros; first [ apply (requirePlugin_returns _ NT)
                      | eexists; first
                          [ apply (dispatch_returns _ NT)
                          | apply (unloadModule_returns _ NT)
                          | apply (startPluginIfNeeded_returns _ NT)
                          | apply (stopPluginIfNeeded_returns _ NT)
                          | apply (initPlugin_returns _ NT)
                          | apply (deinitPlugin_returns _ NT)
                          | apply (loadDevicePlugin_returns _ NT)
                          | apply (unloadDevicePlugin_returns _ NT) ] ]]
  | |- calm _ (bind _ _) => apply calm_bind; [|intros]
  | |- calm _ (try_catch _ _) => apply calm_try_catch
  | |- calm _ (forEach _ _) => apply calm_forEach; intros
  | |- calm _ (match _ with _ => _ end) => case_match
  end.

Section NoErrorOfItsOwn.
Context {W : Type} `{!Host W}.
Local Open Scope m_scope.

Lemma calm_handleCommand (NT : NeverThrows W) command :
  calm onlyUnexpectedReported (handleCommand command).
Proof.
  destruct command as [payload|payload|payload|payload|ty];
    unfold_manager; repeat calm_step NT; simpl; eauto.
Qed.


End NoErrorOfItsOwn.

Section OneReport.
Context {W : Type} `{!Host W}.
Local Open Scope m_scope.

Lemma count_try_catch {A} (K : Event → bool) (m : M W A) h (w : W) :
  emits (λ ev, K ev = false) m →
  List.filter K (trace (try_catch m h w)) =
    match res (m w) with
    | Ok _ => []
    | Throw e => List.filter K (trace (h e (world (m w))))
    end.
Proof.
  intros Hm. rewrite trace_try_catch, List.filter_app.
  rewrite (emits_filter_nil K m w Hm). by destruct (res (m w)).
Qed.

Lemma updatePlugin_no_report (K : Event → bool) payload :
  K = isConsoleError ∨ K = isNotification →
  emits (W := W) (λ ev, K ev = false) (updatePlugin payload).
Proof. intros [-> | ->]; emits_auto. Qed.

Lemma switchPlugin_no_report (K : Event → bool) payload :
  K = isConsoleError ∨ K = isNotification →
  emits (W := W) (λ ev, K ev = false) (switchPlugin payload).
Proof. intros [-> | ->]; emits_auto. Qed.

Ltac case_res :=
  match goal with
  | |- context [match res ?x with _ => _ end] => destruct (res x)
  end.

Lemma guardedCommand_reports_once (K : Event → bool) command (w : W) :
  K = isConsoleError ∨ K = isNotification →
  (length (List.filter K (trace (guardedCommand command w))) ≤ 1)%nat.
Proof.
  intros HK. unfold guardedCommand.
  destruct command as [payload|payload|payload|payload|ty]; simpl.
  - assert (Hr : res (loadPlugin payload w) = Ok ()).
    { unfold loadPlugin. rewrite res_try_catch.
      destruct (res _); [by destruct a|apply load_catch_res]. }
    rewrite trace_try_catch, Hr, app_nil_r. unfold loadPlugin.
    rewrite count_try_catch.
    + case_res; [simpl; lia|]. rewrite load_catch_trace.
      unfold loadFailureReport.
      destruct HK as [-> | ->]; destruct (notifyIfFailed payload); simpl; lia.
    + destruct HK as [-> | ->]; emits_auto.
  - assert (Hr : res (uninstallPlugin payload w) = Ok ()).
    { unfold uninstallPlugin. rewrite res_try_catch.
      destruct (res _); [by destruct a|done]. }
    rewrite trace_try_catch, Hr, app_nil_r. unfold uninstallPlugin.
    rewrite count_try_catch.
    + case_res; [simpl; lia|].
      destruct HK as [-> | ->]; simpl; lia.
    + destruct HK as [-> | ->]; emits_auto.
  - rewrite count_try_catch by (by apply updatePlugin_no_report).
    case_res; [simpl; lia|]. destruct HK as [-> | ->]; simpl; lia.
  - rewrite count_try_catch by (by apply switchPlugin_no_report).
    case_res; [simpl; lia|]. destruct HK as [-> | ->]; simpl; lia.
  - destruct HK as [-> | ->]; cbn; lia.
Qed.

(** X10.  A failure is reported once.  Handling one command, guarded as in
    the loop, leaves at most one log entry and at most one notification: a
    load or an uninstall that fails is logged by its own handler and not
    again by the loop.  So a drain logs at most as many errors, and shows at
    most as many notifications, as the snapshot has commands. *)
Theorem one_report_per_command (queue : list PluginCommand) (w : W) :
  (∀ command w',
     (length (List.filter isConsoleError (trace (guardedCommand command w')))
      ≤ 1)%nat
     ∧ (length (List.filter isNotification (trace (guardedCommand command w')))
        ≤ 1)%nat)
  ∧ (length (List.filter isConsoleError
               (trace (processPluginCommandsQueue queue w))) ≤ length queue)%nat
  ∧ (length (List.filter isNotification
               (trace (processPluginCommandsQueue queue w))) ≤ length queue)%nat.
Proof.
  assert (Hloop : ∀ K, K = isConsoleError ∨ K = isNotification →
            ∀ q w', (length (List.filter K (trace (forEach q guardedCommand w')))
                     ≤ length q)%nat).
  { intros K HK q. induction q as [|c q IH]; intros w'; simpl; [lia|].
    rewrite trace_bind, guardedCommand_ok, List.filter_app, length_app.
    pose proof (guardedCommand_reports_once K c w' HK).
    specialize (IH (world (guardedCommand c w'))). lia. }
  split; [|split].
  - intros command w'. split; apply guardedCommand_reports_once; auto.
  - unfold processPluginCommandsQueue.
    rewrite trace_bind, List.filter_app, length_app.
    pose proof (Hloop isConsoleError (or_introl eq_refl) queue w).
    destruct (res _); simpl; lia.
  - unfold processPluginCommandsQueue.
    rewrite trace_bind, List.filter_app, length_app.
    pose proof (Hloop isNotification (or_intror eq_refl) queue w).
    destruct (res _); simpl; lia.
Qed.

End OneReport.

(** ** The clients a handler addresses *)

Section ClientsAddressed.
Context {W : Type} `{!Host W}.
Local Open Scope m_scope.

Lemma stopPlugin_on_client c pid force :
  emits (W := W) (onClientsOf [c]) (stopPlugin c pid force).
Proof. emits_auto; intros c' [= <-]; by left. Qed.

Lemma startPlugin_on_client c plugin force :
  emits (W := W) (onClientsOf [c]) (startPlugin c plugin force).
Proof. emits_auto; intros c' [= <-]; by left. Qed.

Lemma onClientsOf_weaken cs (c : Client) {A} (m : M W A) :
  c ∈ cs → emits (onClientsOf [c]) m → emits (onClientsOf cs) m.
Proof.
  intros Hc Hm w. eapply Forall_impl; [apply Hm|].
  intros ev Hev c' Hc'. apply Hev in Hc'.
  by apply list_elem_of_singleton in Hc' as ->.
Qed.

Lemma no_client_call cs ev : clientOf ev = None → onClientsOf cs ev.
Proof. intros Hev c. by rewrite Hev. Qed.

(** X11.  A handler addresses no client but those it selected at entry.  A
    switch calls only connected clients whose query names the resolved app;
    with an explicit app that is the empty string it does nothing at all,
    whatever app is selected.  An update calls only the clients that support
    the plugin and have it enabled for their app once the [if (enable)]
    block has run. *)
Theorem handlers_address_selected_clients
    (plugin : PluginDefinition) (enable : bool) (selectedApp : option string)
    (w : W) :
  (∀ ev c,
     ev ∈ trace (switchClientPlugin plugin selectedApp w) →
     clientOf ev = Some c →
     c ∈ clients (connections (getState w))
     ∧ resolvedApp selectedApp w = Some (app (query c)))
  ∧ switchClientPlugin plugin (Some EmptyString) w = MkOut (Ok ()) w []
  ∧ Forall
      (onClientsOf
         (clientsWithEnabledPlugin plugin
            (getAllClients (connections (getState w)))
            (world (enableForSelectedApp plugin enable w))))
      (trace (updateClientPlugin plugin enable w)).
Proof.
  split; [|split].
  - unfold switchClientPlugin, resolvedApp.
    assert (Hsel :
      ∀ k : option string → M W (),
        (sel <- match selectedApp with
                | Some a => ret (Some a)
                | None => getSelectedAppName
                end ;; k sel) w
        = k match selectedApp with
            | Some a => Some a
            | None => selectedAppName w
            end w).
    { intros k. destruct selectedApp; [apply bind_ret|].
      unfold getSelectedAppName. apply bind_gets. }
    rewrite Hsel. clear Hsel.
    destruct (truthy_app _) as [a|]; [|intros ev c Hin; by inversion Hin].
    rewrite bind_gets.
    set (cs := getClientsByAppName (clients (connections (getState w))) a).
    assert (Hcs : ∀ c, c ∈ cs →
              c ∈ clients (connections (getState w)) ∧ app (query c) = a).
    { intros c. unfold cs, getClientsByAppName.
      rewrite list_elem_of_In, filter_In, <- list_elem_of_In, String.eqb_eq.
      done. }
    assert (He : ∀ k : M W (),
              emits (onClientsOf cs) k →
              emits (onClientsOf cs)
                (if includes_opt
                      (enabledPlugins (connections (getState w)) !! a)
                      (plugin_id plugin)
                 then
                   forEach cs (λ client,
                     stopPlugin client (plugin_id plugin) false ;;
                     dispatch (clearMessageQueue
                       (getPluginKey (client_id client)
                          (device_id (query client)) (plugin_id plugin)))) ;;
                   dispatch (setPluginDisabled (plugin_id plugin) a)
                 else
                   forEach cs (λ client, startPlugin client plugin false) ;;
                   dispatch (setPluginEnabled (plugin_id plugin) a))).
    { intros k _. destruct (includes_opt _ _).
      - apply emits_bind; [|intros; apply emits_call; by apply no_client_call].
        apply emits_forEach_in. intros c Hc. apply emits_bind.
        + apply (onClientsOf_weaken cs c); [done|apply stopPlugin_on_client].
        + intros; apply emits_call; by apply no_client_call.
      - apply emits_bind; [|intros; apply emits_call; by apply no_client_call].
        apply emits_forEach_in. intros c Hc.
        apply (onClientsOf_weaken cs c); [done|apply startPlugin_on_client]. }
    specialize (He (ret ()) (emits_ret _ _) w). rewrite Forall_forall in He.
    intros ev c Hin Hc. destruct (Hcs c (He ev Hin c Hc)) as [? <-]. done.
  - unfold switchClientPlugin. by rewrite bind_ret.
  - revert w. intros w. unfold updateClientPlugin. rewrite bind_gets.
    rewrite trace_bind. apply Forall_app. split.
    { assert (Hh : emits (W := W) (λ ev, clientOf ev = None)
                     (enableForSelectedApp plugin enable)) by emits_auto.
      eapply Forall_impl; [apply Hh|]. intros ev. apply no_client_call. }
    destruct (res (enableForSelectedApp plugin enable w)); [|constructor].
    rewrite !bind_gets.
    set (cs := clientsWithEnabledPlugin plugin _ _).
    assert (He : emits (onClientsOf cs)
      (forEach cs (λ client,
         stopPlugin client (plugin_id plugin) false ;; ret ()) ;;
       forEach cs (λ client, startPlugin client plugin true) ;;
       dispatch (pluginLoaded plugin) ;;
       match clientPlugins
               (plugins (getState (world (enableForSelectedApp plugin enable w))))
             !! plugin_id plugin with
       | Some previousVersion => unloadPluginModule (details previousVersion)
       | None => ret ()
       end)).
    { apply emits_bind.
      - apply emits_forEach_in. intros c Hc. apply emits_bind; [|intros; apply emits_ret].
        apply (onClientsOf_weaken cs c); [done|apply stopPlugin_on_client].
      - intros _. apply emits_bind.
        + apply emits_forEach_in. intros c Hc.
          apply (onClientsOf_weaken cs c); [done|apply startPlugin_on_client].
        + intros _. apply emits_bind; [apply emits_call; by apply no_client_call|].
          intros _. case_match; [|apply emits_ret].
          unfold unloadPluginModule. case_match; [apply emits_ret|].
          apply emits_call. by apply no_client_call. }
    apply He.
Qed.

End ClientsAddressed.

(** ** The properties above on concrete worlds *)

Section FurtherScenarios.
Import SpecHost Fixtures.

(** The logs plugin is a device plugin, the test plugin a client plugin. *)
Lemma plugin_kinds_kept_apart_witness :
  isDevicePluginDefinition logsPlugin = true
  ∧ isDevicePluginDefinition testPlugin = false
  ∧ Forall (λ ev, isClientCall ev = false)
      (trace (updatePlugin
                {| update_plugin := logsPlugin; enablePlugin := true |} world0))
  ∧ Forall (λ ev, isDeviceCall ev = false)
      (trace (switchPlugin switchTest world0)).
Proof.
  split; [reflexivity|]. split; [reflexivity|].
  destruct (plugin_kinds_kept_apart logsPlugin true None world0)
    as [Hdevice _].
  destruct (plugin_kinds_kept_apart testPlugin false (Some "TestApp") world0)
    as [_ Hclient].
  split.
  - apply Hdevice. reflexivity.
  - apply Hclient. reflexivity.
Defined.

(** Switching the test plugin on in [world0] ends with the dispatch that
    enables it for the app. *)
Lemma switchPlugin_flips_flag_last_witness :
  isFlagDispatch (EvDispatch (setPluginEnabled "TestPlugin" "TestApp")) = true
  ∧ EvDispatch (setPluginEnabled "TestPlugin" "TestApp")
      ∈ trace (switchPlugin switchTest world0)
  ∧ ∃ t,
      trace (switchPlugin switchTest world0)
      = t ++ [EvDispatch (setPluginEnabled "TestPlugin" "TestApp")]
      ∧ Forall (λ ev, isFlagDispatch ev = false) t.
Proof.
  split; [reflexivity|].
  assert (Hin : EvDispatch (setPluginEnabled "TestPlugin" "TestApp")
                  ∈ trace (switchPlugin switchTest world0)).
  { apply list_elem_of_In. vm_compute. auto. }
  split; [exact Hin|].
  apply (switchPlugin_flips_flag_last switchTest world0
           (EvDispatch (setPluginEnabled "TestPlugin" "TestApp")));
    [reflexivity|exact Hin].
Defined.


(** Switching the test plugin on for its app calls the one client of that
    app. *)
Lemma handlers_address_selected_clients_witness :
  EvStartPluginIfNeeded testClient testPlugin
    ∈ trace (switchClientPlugin testPlugin (Some "TestApp") world0)
  ∧ clientOf (EvStartPluginIfNeeded testClient testPlugin) = Some testClient
  ∧ testClient ∈ clients (connections (getState world0))
  ∧ resolvedApp (Some "TestApp") world0 = Some (app (query testClient)).
Proof.
  assert (Hin : EvStartPluginIfNeeded testClient testPlugin
                  ∈ trace (switchClientPlugin testPlugin (Some "TestApp")
                             world0)).
  { apply list_elem_of_In. vm_compute. auto. }
  split; [exact Hin|]. split; [reflexivity|].
  destruct (handlers_address_selected_clients testPlugin false
              (Some "TestApp") world0) as [Hswitch _].
  apply (Hswitch (EvStartPluginIfNeeded testClient testPlugin) testClient);
    [exact Hin|reflexivity].
Defined.

End FurtherScenarios.
